(** * bgp.py: the route-server directory of the EdgeIX Discord bot

    A shallow embedding of [src/bgp.py] (class [RouteServerInteraction]) and
    the properties of its refresh, lookup, index and rendering code.

    Conventions of the embedding.
    - A Python [dict] is an association list in insertion order whose keys
      are pairwise distinct (module [Dict]): [d[k] = v] overwrites in place
      or appends, iteration follows the list.
    - A decoded JSON document is a [json] value.  JSON numbers are integers
      (the session fields the code compares are AS numbers); [JNull] is
      Python's [None].
    - A raised exception is [inl e] in the [result] monad; statements that
      return are [inr].
    - [requests.get] is the environment: an oracle [net] indexed by the
      number of requests issued so far and by the URL asked for.  The
      counter [requests] of the [world] is a ghost field that counts the
      GETs issued; the code never reads it. *)

From Stdlib Require Import ZArith List String Ascii Bool Lia DecimalString.
Import ListNotations.

Local Open Scope string_scope.
Local Open Scope list_scope.
Local Open Scope Z_scope.

(* ===================================================================== *)
(** ** Python values *)
(* ===================================================================== *)

(** What [json.loads] can return. *)
#[local] Set Warnings "-register-all".
Inductive json : Type :=
| JNull
| JBool (b : bool)
| JInt (z : Z)
| JStr (s : string)
| JList (l : list json)
| JDict (d : list (string * json)).

(** The exception classes that can travel through the code.  The first two
    are the ones [_load_bird_data] names in its [except] clause; the next
    two stand for the other exceptions of [requests] ([MissingSchema] is
    what an unusable URL raises, [ReadTimeout] a stalled transfer);
    [ValueError] is what an integer too long to write out raises. *)
Inductive exn : Type :=
| ConnectionError
| JSONDecodeError
| MissingSchema
| ReadTimeout
| ValueError
| KeyError
| TypeError
| AttributeError
| UnboundLocalError.

Definition result (A : Type) : Type := (exn + A)%type.

Definition ret {A} (a : A) : result A := inr a.
Definition raise {A} (e : exn) : result A := inl e.
Definition bind {A B} (m : result A) (k : A -> result B) : result B :=
  match m with
  | inl e => inl e
  | inr a => k a
  end.

Notation "x <- m ;; k" := (bind m (fun x => k))
  (at level 61, m at next level, right associativity).
Notation "' p <- m ;; k" := (bind m (fun x => match x with p => k end))
  (at level 61, p pattern, m at next level, right associativity).

(* ===================================================================== *)
(** ** Insertion-ordered dictionaries *)
(* ===================================================================== *)

Module Dict.
Section Ops.
Context {K V : Type} (eqb : K -> K -> bool).

(** [d.get(k)] *)
Fixpoint get (k : K) (d : list (K * V)) : option V :=
  match d with
  | [] => None
  | (k', v) :: d' => if eqb k' k then Some v else get k d'
  end.

(** [k in d] *)
Definition mem (k : K) (d : list (K * V)) : bool :=
  match get k d with
  | Some _ => true
  | None => false
  end.

(** [d[k] = v]: an existing key keeps its place, a new one goes last. *)
Fixpoint set (k : K) (v : V) (d : list (K * V)) : list (K * V) :=
  match d with
  | [] => [(k, v)]
  | (k', v') :: d' =>
      if eqb k' k then (k', v) :: d' else (k', v') :: set k v d'
  end.

Definition keys (d : list (K * V)) : list K := map fst d.
End Ops.
End Dict.

(** Keys of the index views.  Python hashes [True] and [1] (and [False] and
    [0]) to the same dictionary key, so a Boolean key is stored as its
    number; lists and dicts are unhashable. *)
Inductive key : Type :=
| KInt (z : Z)
| KStr (s : string).

Definition key_eqb (a b : key) : bool :=
  match a, b with
  | KInt x, KInt y => Z.eqb x y
  | KStr s, KStr t => String.eqb s t
  | _, _ => false
  end.

Definition Z_of_bool (b : bool) : Z := if b then 1 else 0.

(** The dictionary key a value stands for: [inr None] for [None] (the
    callers test [is not None] first), [TypeError] when unhashable. *)
Definition hash_key (v : json) : result (option key) :=
  match v with
  | JNull => ret None
  | JBool b => ret (Some (KInt (Z_of_bool b)))
  | JInt z => ret (Some (KInt z))
  | JStr s => ret (Some (KStr s))
  | JList _ | JDict _ => raise TypeError
  end.

(** [v == z] for an [int] [z]. *)
Definition py_eq_int (v : json) (z : Z) : bool :=
  match v with
  | JInt n => Z.eqb n z
  | JBool b => Z.eqb (Z_of_bool b) z
  | _ => false
  end.

(** [d.get(k)] on a decoded object: the value, or [None]. *)
Definition dget (d : list (string * json)) (k : string) : json :=
  match Dict.get String.eqb k d with
  | Some v => v
  | None => JNull
  end.

(** [v[k]] with a string [k]. *)
Definition getitem (v : json) (k : string) : result json :=
  match v with
  | JDict d =>
      match Dict.get String.eqb k d with
      | Some x => ret x
      | None => raise KeyError
      end
  | _ => raise TypeError
  end.

(** [v.items()] *)
Definition items (v : json) : result (list (string * json)) :=
  match v with
  | JDict d => ret d
  | _ => raise AttributeError
  end.

(** [v is not None] *)
Definition is_not_none (v : json) : bool :=
  match v with
  | JNull => false
  | _ => true
  end.

(* ===================================================================== *)
(** ** [int(str)] and [_int_convert] *)
(* ===================================================================== *)

(** CPython's [int] on a string, read as a sequence of code points below
    256 (a [string] cannot hold the others, so decimal digits of other
    scripts are outside the model): surrounding white space, an optional
    sign, decimal digits, single underscores between digits, and at most
    [max_str_digits] digits.

    White space is what [int] skips: the six characters of C's [isspace]
    (tab to carriage return, and the space) and, of the code points from
    127 on, the two that are Unicode white space (U+0085 and U+00A0), which
    [int] turns into spaces first.  The separators U+001C to U+001F are
    not skipped. *)
Definition is_space (c : ascii) : bool :=
  let n := nat_of_ascii c in
  (Nat.leb 9 n && Nat.leb n 13) || Nat.eqb n 32
  || Nat.eqb n 133 || Nat.eqb n 160.

(** The limit CPython 3.11 puts on conversions between [int] and decimal
    text ([sys.int_info.default_max_str_digits]); beyond it both
    directions raise [ValueError]. *)
Definition max_str_digits : nat := 4300.

Definition digit_val (c : ascii) : option Z :=
  let n := nat_of_ascii c in
  if Nat.leb 48 n && Nat.leb n 57 then Some (Z.of_nat (n - 48)) else None.

Fixpoint lstrip (l : list ascii) : list ascii :=
  match l with
  | c :: r => if is_space c then lstrip r else l
  | [] => []
  end.

Definition strip (l : list ascii) : list ascii :=
  rev (lstrip (rev (lstrip l))).

Fixpoint digits (prev_digit : bool) (acc : Z) (l : list ascii) : option Z :=
  match l with
  | [] => if prev_digit then Some acc else None
  | c :: r =>
      match digit_val c with
      | Some d => digits true (10 * acc + d) r
      | None =>
          if Ascii.eqb c "_"%char && prev_digit then digits false acc r
          else None
      end
  end.

Definition is_digit (c : ascii) : bool :=
  match digit_val c with
  | Some _ => true
  | None => false
  end.

(** The digits of the text, underscores not counted. *)
Definition digit_count (l : list ascii) : nat :=
  List.length (filter is_digit l).

(** The unsigned part of the text: well formed, and within the limit. *)
Definition int_of_digits (l : list ascii) : option Z :=
  match digits false 0 l with
  | Some v => if Nat.leb (digit_count l) max_str_digits then Some v else None
  | None => None
  end.

Definition py_int (s : string) : option Z :=
  match strip (list_ascii_of_string s) with
  | c :: r =>
      if Ascii.eqb c "-"%char then option_map Z.opp (int_of_digits r)
      else if Ascii.eqb c "+"%char then int_of_digits r
      else int_of_digits (c :: r)
  | [] => None
  end.

(** What [_int_convert] returns: "Int if success, False if failure". *)
Inductive int_or_false : Type :=
| IsInt (z : Z)
| IsFalse.

Definition _int_convert (item : string) : int_or_false :=
  match py_int item with
  | Some z => IsInt z
  | None => IsFalse          (* except ValueError *)
  end.

(** [not v] *)
Definition py_not (v : int_or_false) : bool :=
  match v with
  | IsInt z => Z.eqb z 0
  | IsFalse => true
  end.

(** The integer a value compares as ([False == 0]). *)
Definition as_int (v : int_or_false) : Z :=
  match v with
  | IsInt z => z
  | IsFalse => 0
  end.

(** The decimal text of an integer. *)
Definition str_of_int (z : Z) : string := NilZero.string_of_int (Z.to_int z).

(** The integers of at most [max_str_digits] decimal digits. *)
Definition int_limit : Z := 10 ^ Z.of_nat max_str_digits.

Definition fits (z : Z) : bool := Z.ltb (Z.abs z) int_limit.

(** [f'{z}']: the decimal text, or [ValueError] beyond the limit. *)
Definition format_int (z : Z) : result string :=
  if fits z then ret (str_of_int z) else raise ValueError.

(* ===================================================================== *)
(** ** The directory state *)
(* ===================================================================== *)

(** One [{'url': ..}] dictionary of [self.route_servers]: the key ['url']
    is always there (its value may be [None]), ['data'] and ['error'] are
    added by [_load_bird_data]. *)
Record rs_entry : Type := mk_entry {
  url : option string;
  data : option json;
  error : option bool
}.

Definition location_data : Type := list (string * rs_entry).
Definition route_servers_t : Type := list (string * location_data).

Record world : Type := mk_world {
  route_servers : route_servers_t;
  requests : nat
}.

Definition fresh_entry (u : option string) : rs_entry :=
  {| url := u; data := None; error := None |}.

(** The dictionary literal of [__init__]; [getenv] is [os.getenv]. *)
Definition init_route_servers (getenv : string -> option string)
  : route_servers_t :=
  [ ("SYD", [ ("rs1", fresh_entry (getenv "SYD_RS1"));
              ("rs2", fresh_entry (getenv "SYD_RS2")) ]);
    ("MEL", [ ("rs1", fresh_entry (getenv "MEL_RS1"));
              ("rs2", fresh_entry (getenv "MEL_RS2")) ]);
    ("ADL", [ ("rs1", fresh_entry (getenv "ADL_RS1"));
              ("rs2", fresh_entry (getenv "ADL_RS2")) ]);
    ("BNE", [ ("rs1", fresh_entry (getenv "BNE_RS1"));
              ("rs2", fresh_entry (getenv "BNE_RS2")) ]);
    ("PER", [ ("rs1", fresh_entry (getenv "PER_RS1"));
              ("rs2", fresh_entry (getenv "PER_RS2")) ]);
    ("DRW", [ ("rs1", fresh_entry (getenv "DRW_RS1")) ]);
    ("HBA", [ ("rs1", fresh_entry (getenv "HBA_RS1")) ]) ].

(** [rsd['data'] = j] and [rsd['error'] = True]. *)
Definition set_data (rsd : rs_entry) (j : json) : rs_entry :=
  {| url := url rsd; data := Some j; error := error rsd |}.

Definition set_error (rsd : rs_entry) : rs_entry :=
  {| url := url rsd; data := data rsd; error := Some true |}.

(** [rsd.get('error') is not None] *)
Definition errored (rsd : rs_entry) : bool :=
  match error rsd with
  | Some _ => true
  | None => false
  end.

(** [rsd.get('data') is not None] *)
Definition populated (rsd : rs_entry) : bool :=
  match data rsd with
  | Some j => is_not_none j
  | None => false
  end.

(** Every (location, route server, entry) in iteration order. *)
Definition endpoints (rs : route_servers_t)
  : list (string * string * rs_entry) :=
  flat_map (fun ld => map (fun re => (fst ld, fst re, snd re)) (snd ld)) rs.

(* ===================================================================== *)
(** ** The HTTP environment *)
(* ===================================================================== *)

(** A response object, as far as the code looks at it: [.json()] either
    returns the decoded body or raises [JSONDecodeError]
    ([json_body = None]).  The status code is carried along; no line of the
    source reads it. *)
Record response : Type := mk_response {
  status_code : Z;
  json_body : option json
}.

Inductive http_outcome : Type :=
| Raise (e : exn)
| Respond (r : response).

Definition net_t : Type := nat -> option string -> http_outcome.

(** [requests.get(u).json()], the [n]-th request of the run. *)
Definition requests_get_json (net : net_t) (n : nat) (u : option string)
  : result json :=
  match net n u with
  | Raise e => raise e
  | Respond r =>
      match json_body r with
      | Some j => ret j
      | None => raise JSONDecodeError
      end
  end.

(** [except (requests.exceptions.ConnectionError,
             json.decoder.JSONDecodeError)] *)
Definition caught (e : exn) : bool :=
  match e with
  | ConnectionError | JSONDecodeError => true
  | _ => false
  end.

(* ===================================================================== *)
(** ** [_load_bird_data] and [get_responses] *)
(* ===================================================================== *)

(** The [try]/[except] statement on one entry. *)
Definition fetch (net : net_t) (n : nat) (rsd : rs_entry) : result rs_entry :=
  match requests_get_json net n (url rsd) with
  | inr j => ret (set_data rsd j)
  | inl e => if caught e then ret (set_error rsd) else raise e
  end.

(** [for rs, rsd in loc_data.items()] *)
Fixpoint load_location (net : net_t) (n : nat) (loc_data : location_data)
  : result (location_data * nat) :=
  match loc_data with
  | [] => ret ([], n)
  | (rs, rsd) :: rest =>
      rsd' <- fetch net n rsd ;;
      '(rest', n') <- load_location net (S n) rest ;;
      ret ((rs, rsd') :: rest', n')
  end.

(** [for loc, loc_data in self.route_servers.items()] *)
Fixpoint load_all (net : net_t) (n : nat) (rs : route_servers_t)
  : result (route_servers_t * nat) :=
  match rs with
  | [] => ret ([], n)
  | (loc, loc_data) :: rest =>
      '(loc_data', n1) <- load_location net n loc_data ;;
      '(rest', n2) <- load_all net n1 rest ;;
      ret ((loc, loc_data') :: rest', n2)
  end.

(** Returns [self.route_servers] (the same object it has just updated).
    An exception that the [except] clause does not name leaves both loops
    and the function; the model then keeps the exception alone. *)
Definition _load_bird_data (net : net_t) (w : world)
  : result (route_servers_t * world) :=
  '(rs', n') <- load_all net (requests w) (route_servers w) ;;
  ret (rs', {| route_servers := rs'; requests := n' |}).

Definition get_responses (net : net_t) (w : world)
  : result (route_servers_t * world) :=
  _load_bird_data net w.

(** [__init__]: the literal, then "Load data on init". *)
Definition init (getenv : string -> option string) (net : net_t)
  : result world :=
  '(_, w) <- get_responses net
               {| route_servers := init_route_servers getenv; requests := O |} ;;
  ret w.

(* ===================================================================== *)
(** ** [check_asn] *)
(* ===================================================================== *)

Record match_row : Type := mk_row {
  asn : Z;
  name : json;
  state : json
}.

Definition location_matches : Type := list (string * match_row).
Definition matches_t : Type := list (string * location_matches).

(** The body of [if asn_data.get('neighbor_as') == checked_asn:]. *)
Definition record_match (location route_server : string) (checked_asn : Z)
    (asn_data : list (string * json)) (resp : matches_t) : matches_t :=
  let row := {| asn := checked_asn;
                name := dget asn_data "description";
                state := dget asn_data "state" |} in
  let resp1 :=
    if negb (Dict.mem String.eqb location resp)
    then Dict.set String.eqb location [(route_server, row)] resp
    else resp in
  match Dict.get String.eqb location resp1 with
  | Some inner =>
      if negb (Dict.mem String.eqb route_server inner)
      then Dict.set String.eqb location
             (Dict.set String.eqb route_server row inner) resp1
      else resp1
  | None => resp1
  end.

(** [for asn, asn_data in route_server_data['data']['protocols'].items()] *)
Fixpoint scan_protocols (location route_server : string) (checked_asn : Z)
    (protocols : list (string * json)) (resp : matches_t) : result matches_t :=
  match protocols with
  | [] => ret resp
  | (_, asn_data) :: rest =>
      match asn_data with
      | JDict d =>
          scan_protocols location route_server checked_asn rest
            (if py_eq_int (dget d "neighbor_as") checked_asn
             then record_match location route_server checked_asn d resp
             else resp)
      | _ => raise AttributeError      (* asn_data.get *)
      end
  end.

(** [route_server_data['data']] *)
Definition entry_data (rsd : rs_entry) : result json :=
  match data rsd with
  | Some j => ret j
  | None => raise KeyError
  end.

(** [for route_server, route_server_data in location_data.items()] *)
Fixpoint scan_location (location : string) (checked_asn : Z)
    (loc_data : location_data) (resp : matches_t) : result matches_t :=
  match loc_data with
  | [] => ret resp
  | (route_server, rsd) :: rest =>
      if errored rsd
      then scan_location location checked_asn rest resp        (* continue *)
      else
        d <- entry_data rsd ;;
        p <- getitem d "protocols" ;;
        its <- items p ;;
        resp' <- scan_protocols location route_server checked_asn its resp ;;
        scan_location location checked_asn rest resp'
  end.

(** [for location, location_data in data.items()] *)
Fixpoint scan (checked_asn : Z) (rs : route_servers_t) (resp : matches_t)
  : result matches_t :=
  match rs with
  | [] => ret resp
  | (location, loc_data) :: rest =>
      resp' <- scan_location location checked_asn loc_data resp ;;
      scan checked_asn rest resp'
  end.

Definition check_asn (net : net_t) (checked_asn : Z) (w : world)
  : result (matches_t * world) :=
  '(rs, w') <- get_responses net w ;;
  resp <- scan checked_asn rs [] ;;
  ret (resp, w').

(* ===================================================================== *)
(** ** [parse] *)
(* ===================================================================== *)

(** A [PrettyTable] before it is drawn. *)
Record PrettyTable : Type := mk_table {
  field_names : list string;
  rows : list (list json)
}.

(** A message body: plain text, or a table between code fences. *)
Inductive body : Type :=
| Text (s : string)
| Fenced (t : PrettyTable).

(** The inner loop; [last] is the loop variable [route_server_data], which
    stays bound to its last value when the loop ends. *)
Fixpoint parse_location (location : string) (loc : location_matches)
    (tbl : list (list json)) (last : option match_row)
  : list (list json) * option match_row :=
  match loc with
  | [] => (tbl, last)
  | (route_server, row) :: rest =>
      parse_location location rest
        (tbl ++ [[JStr location; JStr route_server; state row]]) (Some row)
  end.

Fixpoint parse_rows (resp : matches_t) (tbl : list (list json))
    (last : option match_row) : list (list json) * option match_row :=
  match resp with
  | [] => (tbl, last)
  | (location, loc) :: rest =>
      let '(tbl', last') := parse_location location loc tbl last in
      parse_rows rest tbl' last'
  end.

Definition parse (resp : matches_t) : result (body * json) :=
  let '(tbl, last) := parse_rows resp [] None in
  match last with
  | Some row =>
      ret (Fenced {| field_names := ["City"; "Route Server"; "BGP State"];
                     rows := tbl |},
           name row)
  | None => raise UnboundLocalError
  end.

(* ===================================================================== *)
(** ** [on_message] *)
(* ===================================================================== *)

Inductive arg : Type :=
| AInt (z : Z)
| AStr (s : string).

Definition invalid_input : body * json :=
  (Text "Please enter a valid ASN!", JStr "Response").

Definition no_chance : body * json :=
  (Text "The day Telstra peer on EdgeIX Route Servers is the day Joe shaves his beard..",
   JStr "No Chance").

(** The answer of lines 96 and 97 around the text [s] of the number. *)
Definition not_present_text (s : string) : body * json :=
  (Text ("AS" ++ s ++
         " is not present on any Route Servers.. perhaps they should email peering@edgeix.net?")%string,
   JStr "Response").

(** That answer for a number whose text can be written. *)
Definition not_present (z : Z) : body * json :=
  not_present_text (str_of_int z).

(** Lines 96 and 97: the f-string is evaluated, which raises [ValueError]
    for a number beyond the limit, then the pair is returned. *)
Definition say_not_present (z : Z) : result (body * json) :=
  s <- format_int z ;;
  ret (not_present_text s).

(** Lines 88 to 99: what [on_message] does once [asn] is an integer. *)
Definition lookup (net : net_t) (z : Z) (w : world)
  : result ((body * json) * world) :=
  if Z.eqb z 1221 then ret (no_chance, w)
  else
    '(resp, w') <- check_asn net z w ;;
    if Nat.eqb (List.length resp) 0%nat then
      r <- say_not_present z ;;
      ret (r, w')
    else
      r <- parse resp ;;
      ret (r, w').

Definition on_message (net : net_t) (a : arg) (w : world)
  : result ((body * json) * world) :=
  match a with
  | AStr s =>
      let v := _int_convert s in
      if py_not v then ret (invalid_input, w)
      else lookup net (as_int v) w
  | AInt z => lookup net z w
  end.

(** The number a call goes on with after lines 83 to 86, when it does. *)
Definition asked (a : arg) : option Z :=
  match a with
  | AStr s =>
      let v := _int_convert s in
      if py_not v then None else Some (as_int v)
  | AInt z => Some z
  end.

(* ===================================================================== *)
(** ** The index views [asns] and [ips] *)
(* ===================================================================== *)

Record asn_entry : Type := mk_asn_entry {
  descr : json;
  locs : list string
}.

Definition asn_index : Type := list (key * asn_entry).

(** [f'{loc} - {rs}'] *)
Definition label (loc rs : string) : string := (loc ++ " - " ++ rs)%string.

(** One session of [asns]: lines 207 to 218. *)
Definition asns_session (loc rs : string) (asn_data : json) (acc : asn_index)
  : result asn_index :=
  match asn_data with
  | JDict d =>
      k <- hash_key (dget d "neighbor_as") ;;
      match k with
      | Some a =>
          let old :=
            match Dict.get key_eqb a acc with
            | Some e => locs e
            | None => []
            end in
          ret (Dict.set key_eqb a
                 {| descr := dget d "description";
                    locs := old ++ [label loc rs] |} acc)
      | None => ret acc
      end
  | _ => raise AttributeError
  end.

Fixpoint asns_protocols (loc rs : string) (protocols : list (string * json))
    (acc : asn_index) : result asn_index :=
  match protocols with
  | [] => ret acc
  | (_, asn_data) :: rest =>
      acc' <- asns_session loc rs asn_data acc ;;
      asns_protocols loc rs rest acc'
  end.

Fixpoint asns_location (loc : string) (loc_data : location_data)
    (acc : asn_index) : result asn_index :=
  match loc_data with
  | [] => ret acc
  | (rs, rsd) :: rest =>
      if populated rsd
      then
        d <- entry_data rsd ;;
        p <- getitem d "protocols" ;;
        its <- items p ;;
        acc' <- asns_protocols loc rs its acc ;;
        asns_location loc rest acc'
      else asns_location loc rest acc
  end.

Fixpoint asns_from (rs : route_servers_t) (acc : asn_index)
  : result asn_index :=
  match rs with
  | [] => ret acc
  | (loc, loc_data) :: rest =>
      acc' <- asns_location loc loc_data acc ;;
      asns_from rest acc'
  end.

Definition asns (w : world) : result asn_index :=
  asns_from (route_servers w) [].

Record ip_entry : Type := mk_ip_entry {
  ip_descr : json;
  ip_loc : string
}.

Definition ip_index : Type := list (key * ip_entry).

(** One session of [ips]: lines 238 to 247. *)
Definition ips_session (loc : string) (asn_data : json) (acc : ip_index)
  : result ip_index :=
  match asn_data with
  | JDict d =>
      k <- hash_key (dget d "neighbor_address") ;;
      match k with
      | Some ip =>
          ret (Dict.set key_eqb ip
                 {| ip_descr := dget d "description"; ip_loc := loc |} acc)
      | None => ret acc
      end
  | _ => raise AttributeError
  end.

Fixpoint ips_protocols (loc : string) (protocols : list (string * json))
    (acc : ip_index) : result ip_index :=
  match protocols with
  | [] => ret acc
  | (_, asn_data) :: rest =>
      acc' <- ips_session loc asn_data acc ;;
      ips_protocols loc rest acc'
  end.

Fixpoint ips_location (loc : string) (loc_data : location_data)
    (acc : ip_index) : result ip_index :=
  match loc_data with
  | [] => ret acc
  | (_, rsd) :: rest =>
      if populated rsd
      then
        d <- entry_data rsd ;;
        p <- getitem d "protocols" ;;
        its <- items p ;;
        acc' <- ips_protocols loc its acc ;;
        ips_location loc rest acc'
      else ips_location loc rest acc
  end.

Fixpoint ips_from (rs : route_servers_t) (acc : ip_index) : result ip_index :=
  match rs with
  | [] => ret acc
  | (loc, loc_data) :: rest =>
      acc' <- ips_location loc loc_data acc ;;
      ips_from rest acc'
  end.

Definition ips (w : world) : result ip_index :=
  ips_from (route_servers w) [].

(* ===================================================================== *)
(** ** Reading a snapshot: the vocabulary of the statements *)
(* ===================================================================== *)

(** A session record is the decoded object of one BGP session. *)
Definition session : Type := list (string * json).

(** The session records behind [protocols.items()], when every value is an
    object. *)
Fixpoint session_dicts (its : list (string * json)) : option (list session) :=
  match its with
  | [] => Some []
  | (_, JDict d) :: rest => option_map (cons d) (session_dicts rest)
  | _ :: _ => None
  end.

(** The session table an entry holds: its ['data'] has the upstream shape
    [{"protocols": {<id>: {..}, ..}}]. *)
Definition sessions (rsd : rs_entry) : option (list session) :=
  match data rsd with
  | Some (JDict top) =>
      match Dict.get String.eqb "protocols" top with
      | Some (JDict p) => session_dicts p
      | _ => None
      end
  | _ => None
  end.

Definition peers_with (checked_asn : Z) (d : session) : bool :=
  py_eq_int (dget d "neighbor_as") checked_asn.

Definition row_of (checked_asn : Z) (d : session) : match_row :=
  {| asn := checked_asn;
     name := dget d "description";
     state := dget d "state" |}.

(** The row an endpoint contributes to a lookup: none when it is flagged
    errored or its table has no session of the ASN, else the row of the
    first such session. *)
Definition endpoint_row (checked_asn : Z) (rsd : rs_entry) : option match_row :=
  if errored rsd then None
  else
    match sessions rsd with
    | Some ss => option_map (row_of checked_asn) (find (peers_with checked_asn) ss)
    | None => None
    end.

Definition opt_list {A} (o : option A) : list A :=
  match o with
  | Some a => [a]
  | None => []
  end.

Definition location_rows (checked_asn : Z) (loc_data : location_data)
  : location_matches :=
  flat_map (fun re => opt_list
              (option_map (pair (fst re)) (endpoint_row checked_asn (snd re))))
           loc_data.

(** [loc -> acc] appended to [resp], unless [acc] is empty. *)
Definition attach (loc : string) (acc : location_matches) (resp : matches_t)
  : matches_t :=
  match acc with
  | [] => resp
  | _ :: _ => resp ++ [(loc, acc)]
  end.

(** The match dictionary a snapshot determines. *)
Fixpoint expected_matches (checked_asn : Z) (rs : route_servers_t) : matches_t :=
  match rs with
  | [] => []
  | (loc, loc_data) :: rest =>
      attach loc (location_rows checked_asn loc_data) []
        ++ expected_matches checked_asn rest
  end.

(** The rows of a match dictionary in iteration order. *)
Definition matched_rows (resp : matches_t)
  : list (string * string * match_row) :=
  flat_map (fun lm => map (fun rr => (fst lm, fst rr, snd rr)) (snd lm)) resp.

(** The drawn row of a match. *)
Definition table_row (m : string * string * match_row) : list json :=
  [JStr (fst (fst m)); JStr (snd (fst m)); state (snd m)].

(** [(location, route server)] is a key pair of [resp]. *)
Definition has_row (location route_server : string) (resp : matches_t) : bool :=
  match Dict.get String.eqb location resp with
  | Some inner => Dict.mem String.eqb route_server inner
  | None => false
  end.

(** Keys of a Python dictionary are pairwise distinct. *)
Definition distinct_keys (rs : route_servers_t) : Prop :=
  NoDup (map fst rs) /\ Forall (fun ld => NoDup (map fst (snd ld))) rs.

(** One encounter of the scan of [asns]. *)
Record encounter : Type := mk_encounter {
  enc_key : key;
  enc_descr : json;
  enc_label : string
}.

Definition session_encounter (loc rs : string) (d : session) : list encounter :=
  match hash_key (dget d "neighbor_as") with
  | inr (Some k) =>
      [{| enc_key := k; enc_descr := dget d "description";
          enc_label := label loc rs |}]
  | _ => []
  end.

Definition endpoint_sessions (rsd : rs_entry) : list session :=
  if populated rsd
  then match sessions rsd with Some ss => ss | None => [] end
  else [].

Definition asn_encounters (rs : route_servers_t) : list encounter :=
  flat_map (fun e => flat_map (session_encounter (fst (fst e)) (snd (fst e)))
                       (endpoint_sessions (snd e)))
           (endpoints rs).

Definition session_ip (loc : string) (d : session) : list (key * ip_entry) :=
  match hash_key (dget d "neighbor_address") with
  | inr (Some k) => [(k, {| ip_descr := dget d "description"; ip_loc := loc |})]
  | _ => []
  end.

Definition ip_encounters (rs : route_servers_t) : list (key * ip_entry) :=
  flat_map (fun e => flat_map (session_ip (fst (fst e)))
                       (endpoint_sessions (snd e)))
           (endpoints rs).

Definition hashable (v : json) : bool :=
  match v with
  | JList _ | JDict _ => false
  | _ => true
  end.

(** Every populated endpoint holds a session table whose field [field] can
    serve as a dictionary key. *)
Definition indexable (field : string) (rs : route_servers_t) : Prop :=
  forall loc r rsd, In (loc, r, rsd) (endpoints rs) ->
    populated rsd = true ->
    exists ss, sessions rsd = Some ss /\
               Forall (fun d => hashable (dget d field) = true) ss.

(** The hypothesis [indexable], location by location. *)
Definition indexable_entries (field : string) (loc_data : location_data) : Prop :=
  Forall (fun re => populated (snd re) = true ->
            exists ss, sessions (snd re) = Some ss /\
                       Forall (fun d => hashable (dget d field) = true) ss)
         loc_data.

(** One step of the [asns] loop on an encounter. *)
Definition add_encounter (acc : asn_index) (e : encounter) : asn_index :=
  Dict.set key_eqb (enc_key e)
    {| descr := enc_descr e;
       locs := match Dict.get key_eqb (enc_key e) acc with
               | Some old => locs old
               | None => []
               end ++ [enc_label e] |} acc.

Definition add_ip (acc : ip_index) (e : key * ip_entry) : ip_index :=
  Dict.set key_eqb (fst e) (snd e) acc.

(** The value a loop variable is left with after a loop over [l]: [init]
    when the loop body never ran. *)
Definition last_bound (l : list (string * string * match_row))
    (init : option match_row) : option match_row :=
  fold_left (fun _ m => Some (snd m)) l init.

(** The entry of [asns] that a key's encounters determine: the description
    of the last one, the labels of all of them in order. *)
Definition index_entry (l : list encounter) : option asn_entry :=
  match l with
  | [] => None
  | e :: es => Some {| descr := enc_descr (List.last es e);
                       locs := map enc_label (e :: es) |}
  end.

(** The entry of [ips] that a key's encounters determine: the last one. *)
Definition last_entry (l : list (key * ip_entry)) : option ip_entry :=
  match l with
  | [] => None
  | e :: es => Some (snd (List.last es e))
  end.

(** The rows a snapshot holds for a number, in iteration order. *)
Definition lookup_rows (checked_asn : Z) (rs : route_servers_t)
  : list (string * string * match_row) :=
  flat_map (fun e => opt_list (option_map (pair (fst e))
                                 (endpoint_row checked_asn (snd e))))
           (endpoints rs).

(** Every entry flagged, nothing else changed. *)
Definition flag_all (rs : route_servers_t) : route_servers_t :=
  map (fun ld => (fst ld, map (fun re => (fst re, set_error (snd re))) (snd ld)))
      rs.

(* ===================================================================== *)
(** ** Scenarios *)
(* ===================================================================== *)

Definition demo_env (k : string) : option string :=
  Some ("http://" ++ k)%string.

Definition example_net_session : json :=
  JDict [("neighbor_as", JInt 64500); ("description", JStr "ExampleNet");
         ("state", JStr "Established");
         ("neighbor_address", JStr "203.0.113.1")].

Definition table_64500 : json :=
  JDict [("protocols", JDict [("s1", example_net_session)])].

Definition empty_table : json := JDict [("protocols", JDict [])].

Definition ok (j : json) : http_outcome :=
  Respond {| status_code := 200; json_body := Some j |}.

(** [u] is the URL [s]. *)
Definition url_is (u : option string) (s : string) : bool :=
  match u with
  | Some t => String.eqb t s
  | None => false
  end.

(** The scenario of the specification: SYD/rs1 serves AS64500, every other
    endpoint refuses the connection. *)
Definition steady_net : net_t := fun _ u =>
  if url_is u "http://SYD_RS1" then ok table_64500
  else Raise ConnectionError.

(** SYD/rs1 refuses the connection while the directory is constructed (the
    first twelve requests) and serves AS64500 from then on; SYD/rs2 then
    answers with a body that is not JSON. *)
Definition recovering_net : net_t := fun n u =>
  if Nat.ltb n 12 then
    if url_is u "http://SYD_RS1" then Raise ConnectionError
    else ok empty_table
  else
    if url_is u "http://SYD_RS1" then ok table_64500
    else if url_is u "http://SYD_RS2"
    then Respond {| status_code := 200; json_body := None |}
    else ok empty_table.

(** SYD/rs1 serves AS64500 and SYD/rs2 a body that is not JSON, from the
    first request on. *)
Definition malformed_net : net_t := fun _ u =>
  if url_is u "http://SYD_RS1" then ok table_64500
  else if url_is u "http://SYD_RS2"
  then Respond {| status_code := 200; json_body := None |}
  else ok empty_table.

(** An environment in which [HBA_RS1] is not set, and a transport that,
    like [requests], refuses a URL without a scheme before it connects. *)
Definition unset_env (k : string) : option string :=
  if String.eqb k "HBA_RS1" then None else demo_env k.

Definition schema_net : net_t := fun _ u =>
  match u with
  | None => Raise MissingSchema
  | Some _ => ok empty_table
  end.

(** SYD/rs1 holds two sessions of AS64500. *)
Definition twice_64500 : json :=
  JDict [("protocols", JDict
    [("s1", JDict [("neighbor_as", JInt 64500); ("description", JStr "First");
                   ("state", JStr "Established")]);
     ("s2", JDict [("neighbor_as", JInt 64500); ("description", JStr "Second");
                   ("state", JStr "Idle")])])].

Definition duplicate_net : net_t := fun _ u =>
  if url_is u "http://SYD_RS1" then ok twice_64500
  else ok empty_table.

(** SYD/rs1 refuses the connection while the directory is constructed (the
    first twelve requests) and serves AS64500 from then on; MEL/rs1 serves
    AS64500 throughout. *)
Definition late_net : net_t := fun n u =>
  if url_is u "http://MEL_RS1" then ok table_64500
  else if url_is u "http://SYD_RS1" then
    if Nat.ltb n 12 then Raise ConnectionError else ok table_64500
  else ok empty_table.

(** SYD/rs1 answers 500 with a JSON error document. *)
Definition error_document : json :=
  JDict [("message", JStr "Internal Server Error")].

Definition failing_net : net_t := fun _ u =>
  if url_is u "http://SYD_RS1"
  then Respond {| status_code := 500; json_body := Some error_document |}
  else ok empty_table.

(** SYD/rs1 answers 200 with the empty object. *)
Definition shapeless_net : net_t := fun _ u =>
  if url_is u "http://SYD_RS1" then ok (JDict [])
  else ok empty_table.

(** The directory before its first refresh, and the snapshot the
    constructor leaves under [steady_net]. *)
Definition fresh_world : world :=
  {| route_servers := init_route_servers demo_env; requests := 0 |}.

Definition steady_snapshot : route_servers_t :=
  Eval vm_compute in
    match get_responses steady_net fresh_world with
    | inr (rs, _) => rs
    | inl _ => []
    end.

Definition steady_world : world :=
  {| route_servers := steady_snapshot; requests := 12 |}.

(** The entry of an endpoint. *)
Definition endpoint (location route_server : string) (rs : route_servers_t)
  : option rs_entry :=
  match Dict.get String.eqb location rs with
  | Some loc_data => Dict.get String.eqb route_server loc_data
  | None => None
  end.

(** Two endpoints announce AS65000 from the same address under different
    descriptions: "Foo" at SYD/rs1, "Bar" at MEL/rs1; the other endpoints
    refuse the connection. *)
Definition peer_65000 (description : string) : json :=
  JDict [("protocols", JDict
    [("p1", JDict [("neighbor_as", JInt 65000);
                   ("description", JStr description);
                   ("state", JStr "Established");
                   ("neighbor_address", JStr "192.0.2.7")])])].

Definition foo_bar_net : net_t := fun _ u =>
  if url_is u "http://SYD_RS1" then ok (peer_65000 "Foo")
  else if url_is u "http://MEL_RS1" then ok (peer_65000 "Bar")
  else Raise ConnectionError.

(** The directory the constructor builds under [foo_bar_net]. *)
Definition two_descriptions : world :=
  Eval vm_compute in
    match init demo_env foo_bar_net with
    | inr w => w
    | inl _ => fresh_world
    end.

(** The directory constructed under [recovering_net] (SYD/rs1 flagged),
    and the same directory after the refresh of one lookup. *)
Definition flagged_world : world :=
  Eval vm_compute in
    match init demo_env recovering_net with
    | inr w => w
    | inl _ => fresh_world
    end.

Definition flagged_world_after : world :=
  Eval vm_compute in
    match _load_bird_data recovering_net flagged_world with
    | inr (_, w) => w
    | inl _ => fresh_world
    end.

(** No endpoint can be reached; the directory constructed then. *)
Definition dark_net : net_t := fun _ _ => Raise ConnectionError.

Definition dark_world : world :=
  Eval vm_compute in
    match init demo_env dark_net with
    | inr w => w
    | inl _ => fresh_world
    end.

(* ===================================================================== *)
(** ** Facts about insertion-ordered dictionaries *)
(* ===================================================================== *)

Module DictFacts.
Section Facts.
Context {K V : Type} (eqb : K -> K -> bool).
Hypothesis eqb_eq : forall a b, eqb a b = true <-> a = b.

Lemma eqb_same (a : K) : eqb a a = true.
Proof. now apply eqb_eq. Qed.

Lemma eqb_diff (a b : K) : a <> b -> eqb a b = false.
Proof.
  intros Hab. destruct (eqb a b) eqn:E; [|reflexivity].
  now apply eqb_eq in E.
Qed.

Lemma get_set (k k' : K) (v : V) (d : list (K * V)) :
  Dict.get eqb k' (Dict.set eqb k v d)
  = if eqb k k' then Some v else Dict.get eqb k' d.
Proof.
  induction d as [|[k0 v0] d IH]; simpl.
  - reflexivity.
  - destruct (eqb k0 k) eqn:E0; simpl.
    + apply eqb_eq in E0. subst k0.
      destruct (eqb k k'); reflexivity.
    + destruct (eqb k0 k') eqn:E1.
      * apply eqb_eq in E1. subst k0.
        destruct (eqb k k') eqn:E2; [|reflexivity].
        apply eqb_eq in E2. subst k'. rewrite eqb_same in E0. discriminate.
      * exact IH.
Qed.

Lemma get_set_same (k : K) (v : V) (d : list (K * V)) :
  Dict.get eqb k (Dict.set eqb k v d) = Some v.
Proof. rewrite get_set, eqb_same. reflexivity. Qed.

Lemma mem_false_iff (k : K) (d : list (K * V)) :
  Dict.mem eqb k d = false <-> ~ In k (Dict.keys d).
Proof.
  unfold Dict.mem. induction d as [|[k0 v0] d IH]; simpl.
  - intuition.
  - destruct (eqb k0 k) eqn:E.
    + apply eqb_eq in E. subst. intuition discriminate.
    + rewrite IH. split.
      * intros Hn [Hk|Hk]; [|now apply Hn].
        subst. rewrite eqb_same in E. discriminate.
      * intros Hn Hk. apply Hn. now right.
Qed.

Lemma set_absent (k : K) (v : V) (d : list (K * V)) :
  Dict.mem eqb k d = false -> Dict.set eqb k v d = d ++ [(k, v)].
Proof.
  unfold Dict.mem. induction d as [|[k0 v0] d IH]; simpl; intros H.
  - reflexivity.
  - destruct (eqb k0 k); [discriminate|]. now rewrite IH.
Qed.

Lemma get_app_absent (k : K) (d d' : list (K * V)) :
  Dict.mem eqb k d = false -> Dict.get eqb k (d ++ d') = Dict.get eqb k d'.
Proof.
  unfold Dict.mem. induction d as [|[k0 v0] d IH]; simpl; intros H.
  - reflexivity.
  - destruct (eqb k0 k); [discriminate|]. now apply IH.
Qed.

Lemma set_app_absent (k : K) (v : V) (d d' : list (K * V)) :
  Dict.mem eqb k d = false ->
  Dict.set eqb k v (d ++ d') = d ++ Dict.set eqb k v d'.
Proof.
  unfold Dict.mem. induction d as [|[k0 v0] d IH]; simpl; intros H.
  - reflexivity.
  - destruct (eqb k0 k); [discriminate|]. now rewrite IH.
Qed.

Lemma get_app_last (k : K) (v : V) (d : list (K * V)) :
  Dict.mem eqb k d = false -> Dict.get eqb k (d ++ [(k, v)]) = Some v.
Proof.
  intros H. rewrite (get_app_absent _ _ _ H). simpl. now rewrite eqb_same.
Qed.

Lemma set_app_last (k : K) (v v0 : V) (d : list (K * V)) :
  Dict.mem eqb k d = false ->
  Dict.set eqb k v (d ++ [(k, v0)]) = d ++ [(k, v)].
Proof.
  intros H. rewrite (set_app_absent _ _ _ _ H). simpl. now rewrite eqb_same.
Qed.

(** An assignment keeps a property of all values that the new one has. *)
Lemma set_Forall (P : V -> Prop) (k : K) (v : V) (d : list (K * V)) :
  P v -> Forall (fun kv => P (snd kv)) d ->
  Forall (fun kv => P (snd kv)) (Dict.set eqb k v d).
Proof.
  intros Hv. induction 1 as [|[k0 v0] d H0 Hd IH]; simpl.
  - constructor; [exact Hv|constructor].
  - destruct (eqb k0 k); constructor; auto.
Qed.

Lemma set_not_nil (k : K) (v : V) (d : list (K * V)) :
  Dict.set eqb k v d <> [].
Proof. destruct d as [|[k0 v0] d]; simpl; [|destruct (eqb k0 k)]; discriminate. Qed.
End Facts.
End DictFacts.

Lemma key_eqb_eq (a b : key) : key_eqb a b = true <-> a = b.
Proof.
  destruct a, b; simpl; try (split; discriminate).
  - rewrite Z.eqb_eq. split; congruence.
  - rewrite String.eqb_eq. split; congruence.
Qed.

(* ===================================================================== *)
(** ** The result monad *)
(* ===================================================================== *)

Lemma bind_inr {A B} (m : result A) (k : A -> result B) (b : B) :
  bind m k = inr b -> exists a, m = inr a /\ k a = inr b.
Proof. destruct m as [e|a]; simpl; [discriminate|eauto]. Qed.

Lemma bind_inl {A B} (m : result A) (k : A -> result B) (e : exn) :
  bind m k = inl e -> m = inl e \/ exists a, m = inr a /\ k a = inl e.
Proof. destruct m as [e'|a]; simpl; [intros [= ->]; now left|eauto]. Qed.

(* ===================================================================== *)
(** ** The refresh *)
(* ===================================================================== *)

Section Refresh.
Variable net : net_t.

(** What the [try]/[except] does, by the outcome of the request. *)
Lemma fetch_outcome (n : nat) (rsd rsd' : rs_entry) :
  fetch net n rsd = inr rsd' ->
  match net n (url rsd) with
  | Raise _ => rsd' = set_error rsd
  | Respond r =>
      match json_body r with
      | Some j => rsd' = set_data rsd j
      | None => rsd' = set_error rsd
      end
  end.
Proof.
  unfold fetch, requests_get_json, raise, ret.
  destruct (net n (url rsd)) as [e|r]; simpl.
  - destruct (caught e); simpl; congruence.
  - destruct (json_body r); simpl; congruence.
Qed.

(** The statement never removes a key.  A request that fails sets the flag
    and leaves the table of an earlier refresh in the entry; a request that
    succeeds stores the table and leaves the flag of an earlier refresh. *)
Lemma fetch_failure_keeps_table (n : nat) (rsd rsd' : rs_entry) (e : exn) :
  requests_get_json net n (url rsd) = inl e ->
  fetch net n rsd = inr rsd' ->
  error rsd' = Some true /\ data rsd' = data rsd.
Proof.
  unfold fetch, raise, ret. intros ->.
  destruct (caught e); [|discriminate]. intros [= <-]. now split.
Qed.

Lemma fetch_success_keeps_flag (n : nat) (rsd rsd' : rs_entry) (j : json) :
  requests_get_json net n (url rsd) = inr j ->
  fetch net n rsd = inr rsd' ->
  data rsd' = Some j /\ error rsd' = error rsd.
Proof.
  unfold fetch, raise, ret. intros ->. intros [= <-]. now split.
Qed.

Lemma fetch_keeps_error (n : nat) (rsd rsd' : rs_entry) :
  fetch net n rsd = inr rsd' -> errored rsd = true -> errored rsd' = true.
Proof.
  intros H. apply fetch_outcome in H.
  destruct (net n (url rsd)) as [e|r]; [|destruct (json_body r)];
    subst rsd'; unfold errored; simpl; auto.
Qed.

(** After the statement the entry has a table or a flag. *)
Lemma fetch_sets_one (n : nat) (rsd rsd' : rs_entry) :
  fetch net n rsd = inr rsd' -> data rsd' <> None \/ error rsd' = Some true.
Proof.
  intros H. apply fetch_outcome in H.
  destruct (net n (url rsd)) as [e|r]; [|destruct (json_body r)];
    subst rsd'; simpl; auto.
  left. discriminate.
Qed.

(** An entry without a flag after the statement holds the document this
    very request returned. *)
Lemma fetch_fresh (n : nat) (rsd rsd' : rs_entry) :
  fetch net n rsd = inr rsd' -> errored rsd' = false ->
  exists j, requests_get_json net n (url rsd) = inr j /\ data rsd' = Some j.
Proof.
  unfold fetch, raise, ret.
  destruct (requests_get_json net n (url rsd)) as [e|j]; simpl.
  - destruct (caught e); simpl; [|discriminate].
    intros [= <-]. unfold errored. simpl. discriminate.
  - intros [= <-] _. eauto.
Qed.

Hypothesis only_caught : forall n u e, net n u = Raise e -> caught e = true.

Lemma fetch_returns (n : nat) (rsd : rs_entry) :
  exists rsd', fetch net n rsd = inr rsd'.
Proof.
  unfold fetch, requests_get_json, raise, ret.
  destruct (net n (url rsd)) as [e|r] eqn:E; simpl.
  - rewrite (only_caught _ _ _ E). eauto.
  - destruct (json_body r); simpl; eauto.
Qed.

Lemma load_location_returns (loc_data : location_data) (n : nat) :
  exists loc_data',
    load_location net n loc_data = inr (loc_data', (n + List.length loc_data)%nat) /\
    List.length loc_data' = List.length loc_data /\
    forall i r rsd, nth_error loc_data i = Some (r, rsd) ->
      exists rsd', nth_error loc_data' i = Some (r, rsd') /\
                   fetch net (n + i) rsd = inr rsd'.
Proof.
  revert n. induction loc_data as [|[r0 rsd0] rest IH]; intros n; simpl.
  - exists []. rewrite Nat.add_0_r. repeat split.
    intros [|i] ? ? H; discriminate.
  - destruct (fetch_returns n rsd0) as [rsd0' H0]. rewrite H0. simpl.
    destruct (IH (S n)) as (rest' & Hl & Hlen & Hnth). rewrite Hl. simpl.
    exists ((r0, rsd0') :: rest'). repeat split.
    + now replace (n + S (List.length rest))%nat
        with (S n + List.length rest)%nat by lia.
    + simpl. now rewrite Hlen.
    + intros [|i] r rsd; simpl.
      * intros [= <- <-]. rewrite Nat.add_0_r. eauto.
      * intros H. destruct (Hnth _ _ _ H) as (rsd' & H1 & H2).
        exists rsd'. split; [exact H1|].
        now replace (n + S i)%nat with (S n + i)%nat by lia.
Qed.

Lemma load_all_returns (rs : route_servers_t) (n : nat) :
  exists rs',
    load_all net n rs = inr (rs', (n + List.length (endpoints rs))%nat) /\
    map fst rs' = map fst rs /\
    forall i loc r rsd, nth_error (endpoints rs) i = Some (loc, r, rsd) ->
      exists rsd', nth_error (endpoints rs') i = Some (loc, r, rsd') /\
                   fetch net (n + i) rsd = inr rsd'.
Proof.
  revert n. induction rs as [|[loc0 ld] rest IH]; intros n; simpl.
  - exists []. rewrite Nat.add_0_r. repeat split.
    intros [|i] ? ? ? H; discriminate.
  - destruct (load_location_returns ld n) as (ld' & Hl & Hlen & Hnth).
    rewrite Hl. simpl.
    destruct (IH (n + List.length ld)%nat) as (rest' & Hr & Hk & Hrest).
    rewrite Hr. simpl.
    exists ((loc0, ld') :: rest'). repeat split.
    + rewrite length_app, length_map.
      now rewrite Nat.add_assoc.
    + simpl. now rewrite Hk.
    + intros i loc r rsd. simpl.
      destruct (Nat.lt_ge_cases i (List.length ld)) as [Hi|Hi].
      * rewrite !nth_error_app1 by (rewrite length_map; lia).
        rewrite !nth_error_map.
        destruct (nth_error ld i) as [[r1 rsd1]|] eqn:E; simpl; [|discriminate].
        intros [= <- <- <-].
        destruct (Hnth _ _ _ E) as (rsd' & H1 & H2).
        exists rsd'. rewrite H1. simpl. auto.
      * rewrite !nth_error_app2 by (rewrite length_map; lia).
        rewrite !length_map, Hlen. intros H.
        destruct (Hrest _ _ _ _ H) as (rsd' & H1 & H2).
        exists rsd'. split; [exact H1|].
        now replace (n + i)%nat with (n + List.length ld + (i - List.length ld))%nat by lia.
Qed.
End Refresh.

(** C1 (the code departs from the claim).  An entry can hold a table and
    the error flag at once, and its state after a refresh depends on
    earlier refreshes: SYD/rs1 refuses the connection while the directory
    is constructed and is flagged; the next refresh stores the table it now
    serves and the flag of the earlier refresh is still there. *)
Theorem load_bird_data_flag_outlives_recovery :
  (w1 <- init demo_env recovering_net ;;
   '(rs2, _) <- _load_bird_data recovering_net w1 ;;
   ret (endpoint "SYD" "rs1" (route_servers w1), endpoint "SYD" "rs1" rs2))
  = inr (Some {| url := Some "http://SYD_RS1";
                 data := None; error := Some true |},
         Some {| url := Some "http://SYD_RS1";
                 data := Some table_64500; error := Some true |}).
Proof. vm_compute. reflexivity. Qed.

(** C2, the claim as stated fails: a 500 response whose body is JSON is
    stored as the endpoint's table, and the endpoint is not flagged. *)
Lemma load_bird_data_stores_error_document :
  failing_net 0%nat (Some "http://SYD_RS1")
  = Respond {| status_code := 500; json_body := Some error_document |}
  /\ (w <- init demo_env failing_net ;;
      ret (endpoint "SYD" "rs1" (route_servers w)))
     = inr (Some {| url := Some "http://SYD_RS1";
                    data := Some error_document; error := None |}).
Proof. split; vm_compute; reflexivity. Qed.

(** C2, amended.  When the requests of a refresh raise nothing but
    connection errors and JSON decode errors, the refresh returns the
    updated dictionary after one request per endpoint, and every endpoint
    is settled by its own request alone: flagged errored when the request
    raised or the body was not JSON, given the decoded body as its table
    otherwise (whatever the status code). *)
Theorem load_bird_data_marks_and_continues (net : net_t) (w : world) :
  (forall n u e, net n u = Raise e -> caught e = true) ->
  exists w',
    _load_bird_data net w = inr (route_servers w', w') /\
    requests w' = (requests w + List.length (endpoints (route_servers w)))%nat /\
    forall i loc r rsd,
      nth_error (endpoints (route_servers w)) i = Some (loc, r, rsd) ->
      exists rsd',
        nth_error (endpoints (route_servers w')) i = Some (loc, r, rsd') /\
        match net (requests w + i)%nat (url rsd) with
        | Raise _ => rsd' = set_error rsd
        | Respond resp =>
            match json_body resp with
            | Some j => rsd' = set_data rsd j
            | None => rsd' = set_error rsd
            end
        end.
Proof.
  intros Hnet.
  destruct (load_all_returns net Hnet (route_servers w) (requests w))
    as (rs' & Hload & _ & Hnth).
  exists {| route_servers := rs';
            requests := (requests w + List.length (endpoints (route_servers w)))%nat |}.
  unfold _load_bird_data. rewrite Hload. simpl. repeat split.
  intros i loc r rsd H. destruct (Hnth _ _ _ _ H) as (rsd' & H1 & H2).
  exists rsd'. split; [exact H1|]. now apply fetch_outcome.
Qed.

Lemma load_bird_data_marks_and_continues_witness :
  exists w',
    _load_bird_data steady_net
      {| route_servers := init_route_servers demo_env; requests := 0 |}
    = inr (route_servers w', w') /\
    requests w' = 12%nat /\
    forall i loc r rsd,
      nth_error (endpoints (init_route_servers demo_env)) i = Some (loc, r, rsd) ->
      exists rsd',
        nth_error (endpoints (route_servers w')) i = Some (loc, r, rsd') /\
        match steady_net i (url rsd) with
        | Raise _ => rsd' = set_error rsd
        | Respond resp =>
            match json_body resp with
            | Some j => rsd' = set_data rsd j
            | None => rsd' = set_error rsd
            end
        end.
Proof.
  apply (load_bird_data_marks_and_continues steady_net
           {| route_servers := init_route_servers demo_env; requests := 0 |}).
  intros n u e. unfold steady_net.
  destruct (url_is u "http://SYD_RS1"); [discriminate|].
  intros [= <-]. reflexivity.
Defined.

(* ===================================================================== *)
(** ** The renderer *)
(* ===================================================================== *)

Lemma parse_location_spec (location : string) (loc : location_matches)
    (tbl : list (list json)) (last : option match_row) :
  let ms := map (fun rr => (location, fst rr, snd rr)) loc in
  parse_location location loc tbl last
  = (tbl ++ map table_row ms, last_bound ms last).
Proof.
  revert tbl last. induction loc as [|[r row] rest IH]; intros tbl last; simpl.
  - now rewrite app_nil_r.
  - rewrite IH. simpl. now rewrite <- app_assoc.
Qed.

Lemma parse_rows_spec (resp : matches_t) (tbl : list (list json))
    (last : option match_row) :
  parse_rows resp tbl last
  = (tbl ++ map table_row (matched_rows resp),
     last_bound (matched_rows resp) last).
Proof.
  revert tbl last. induction resp as [|[location loc] rest IH];
    intros tbl last; simpl.
  - now rewrite app_nil_r.
  - rewrite parse_location_spec. simpl. rewrite IH.
    unfold last_bound. now rewrite map_app, fold_left_app, app_assoc.
Qed.

Lemma last_bound_last (l : list (string * string * match_row))
    (init : option match_row) (d : string * string * match_row) :
  l <> [] -> last_bound l init = Some (snd (List.last l d)).
Proof.
  unfold last_bound. revert init.
  induction l as [|m l IH]; intros init Hl; [congruence|].
  destruct l as [|m' l]; [reflexivity|].
  change (fold_left (fun _ m0 => Some (snd m0)) (m' :: l) (Some (snd m))
          = Some (snd (List.last (m' :: l) d))).
  apply IH. discriminate.
Qed.

(** [parse] raises exactly when there is no row to draw. *)
Lemma parse_no_rows (resp : matches_t) :
  matched_rows resp = [] -> parse resp = inl UnboundLocalError.
Proof.
  intros H. unfold parse. rewrite parse_rows_spec, H. reflexivity.
Qed.

Lemma parse_rows_value (resp : matches_t)
    (d : string * string * match_row) :
  matched_rows resp <> [] ->
  parse resp
  = inr (Fenced {| field_names := ["City"; "Route Server"; "BGP State"];
                   rows := map table_row (matched_rows resp) |},
         name (snd (List.last (matched_rows resp) d))).
Proof.
  intros H. unfold parse. rewrite parse_rows_spec.
  rewrite (last_bound_last _ None d H). reflexivity.
Qed.

(** C6.  For a match dictionary with at least one row, [parse] returns the
    table with one City / Route Server / BGP State row per matched
    (location, route server) pair, in iteration order, and as display name
    the description ([name]) of the last of these rows. *)
Theorem parse_table_and_last_name (resp : matches_t)
    (d : string * string * match_row) :
  matched_rows resp <> [] ->
  parse resp
  = inr (Fenced {| field_names := ["City"; "Route Server"; "BGP State"];
                   rows := map table_row (matched_rows resp) |},
         name (snd (List.last (matched_rows resp) d))).
Proof.
  apply parse_rows_value.
Qed.

Lemma parse_table_and_last_name_witness :
  parse [("SYD", [("rs1", {| asn := 64500; name := JStr "Foo";
                             state := JStr "Established" |})]);
         ("MEL", [("rs2", {| asn := 64500; name := JStr "Bar";
                             state := JStr "Idle" |})])]
  = inr (Fenced {| field_names := ["City"; "Route Server"; "BGP State"];
                   rows := [[JStr "SYD"; JStr "rs1"; JStr "Established"];
                            [JStr "MEL"; JStr "rs2"; JStr "Idle"]] |},
         JStr "Bar").
Proof.
  apply (parse_table_and_last_name
           [("SYD", [("rs1", {| asn := 64500; name := JStr "Foo";
                                state := JStr "Established" |})]);
            ("MEL", [("rs2", {| asn := 64500; name := JStr "Bar";
                                state := JStr "Idle" |})])]
           ("", "", {| asn := 0; name := JNull; state := JNull |})).
  simpl. discriminate.
Defined.

(* ===================================================================== *)
(** ** The scan of [check_asn] *)
(* ===================================================================== *)

Section Scan.
Variable checked_asn : Z.

Let seq := String.eqb_eq.

Lemma mem_false_get {V} (k : string) (d : list (string * V)) :
  Dict.mem String.eqb k d = false -> Dict.get String.eqb k d = None.
Proof. unfold Dict.mem. now destruct (Dict.get String.eqb k d). Qed.

(** The two guarded assignments as one case analysis. *)
Lemma record_match_eq (loc r : string) (d : session) (resp : matches_t) :
  record_match loc r checked_asn d resp
  = match Dict.get String.eqb loc resp with
    | None => Dict.set String.eqb loc [(r, row_of checked_asn d)] resp
    | Some inner =>
        if Dict.mem String.eqb r inner then resp
        else Dict.set String.eqb loc
               (Dict.set String.eqb r (row_of checked_asn d) inner) resp
    end.
Proof.
  unfold record_match, row_of, Dict.mem, matches_t, location_matches in *.
  destruct (Dict.get String.eqb loc resp) as [inner|] eqn:E; simpl.
  - rewrite E. now destruct (Dict.get String.eqb r inner).
  - rewrite (DictFacts.get_set_same _ seq). simpl.
    now rewrite String.eqb_refl.
Qed.

Lemma has_row_record_match (loc r : string) (d : session) (resp : matches_t) :
  has_row loc r (record_match loc r checked_asn d resp) = true.
Proof.
  rewrite record_match_eq.
  unfold has_row, matches_t, location_matches in *.
  destruct (Dict.get String.eqb loc resp) as [inner|] eqn:E.
  - destruct (Dict.mem String.eqb r inner) eqn:Er.
    + now rewrite E.
    + rewrite (DictFacts.get_set_same _ seq). unfold Dict.mem.
      now rewrite (DictFacts.get_set_same _ seq).
  - rewrite (DictFacts.get_set_same _ seq). unfold Dict.mem. simpl.
    now rewrite String.eqb_refl.
Qed.

Lemma record_match_present (loc r : string) (d : session) (resp : matches_t) :
  has_row loc r resp = true -> record_match loc r checked_asn d resp = resp.
Proof.
  rewrite record_match_eq.
  unfold has_row, matches_t, location_matches in *.
  destruct (Dict.get String.eqb loc resp) as [inner|]; [|discriminate].
  now intros ->.
Qed.

Lemma record_match_attach (loc r : string) (d : session)
    (acc : location_matches) (resp : matches_t) :
  Dict.mem String.eqb loc resp = false ->
  Dict.mem String.eqb r acc = false ->
  record_match loc r checked_asn d (attach loc acc resp)
  = attach loc (acc ++ [(r, row_of checked_asn d)]) resp.
Proof.
  intros Hloc Hr. rewrite record_match_eq.
  unfold matches_t, location_matches in *.
  destruct acc as [|a acc]; simpl attach.
  - rewrite (mem_false_get _ _ Hloc). now apply DictFacts.set_absent.
  - rewrite (DictFacts.get_app_last _ seq _ _ _ Hloc), Hr.
    rewrite (DictFacts.set_app_last _ seq _ _ _ _ Hloc).
    now rewrite (DictFacts.set_absent _ r _ _ Hr).
Qed.

Lemma record_match_blocks (loc r : string) (d : session) (resp : matches_t) :
  Forall (fun lm => snd lm <> []) resp ->
  Forall (fun lm => snd lm <> []) (record_match loc r checked_asn d resp).
Proof.
  intros H. rewrite record_match_eq.
  destruct (Dict.get String.eqb loc resp) as [inner|].
  - destruct (Dict.mem String.eqb r inner); [exact H|].
    apply (DictFacts.set_Forall _ (fun v : location_matches => v <> []));
      [apply DictFacts.set_not_nil|exact H].
  - apply (DictFacts.set_Forall _ (fun v : location_matches => v <> []));
      [discriminate|exact H].
Qed.

(** The loop over the sessions of one table records the first session of
    the ASN, and nothing when the pair already has a row. *)
Lemma scan_protocols_spec (loc r : string) (its : list (string * json))
    (ss : list session) (resp : matches_t) :
  session_dicts its = Some ss ->
  scan_protocols loc r checked_asn its resp
  = inr (match find (peers_with checked_asn) ss with
         | Some d => record_match loc r checked_asn d resp
         | None => resp
         end).
Proof.
  revert ss resp. induction its as [|[k v] rest IH]; intros ss resp; simpl.
  - intros [= <-]. reflexivity.
  - destruct v; try discriminate.
    destruct (session_dicts rest) as [ss'|] eqn:E; [|discriminate].
    simpl. intros [= <-]. rewrite (IH ss' _ eq_refl). simpl.
    unfold peers_with at 2.
    destruct (py_eq_int (dget d "neighbor_as") checked_asn); [|reflexivity].
    destruct (find (peers_with checked_asn) ss'); [|reflexivity].
    f_equal. apply record_match_present, has_row_record_match.
Qed.

Lemma scan_protocols_blocks (loc r : string) (its : list (string * json))
    (resp resp' : matches_t) :
  Forall (fun lm => snd lm <> []) resp ->
  scan_protocols loc r checked_asn its resp = inr resp' ->
  Forall (fun lm => snd lm <> []) resp'.
Proof.
  revert resp. induction its as [|[k v] rest IH]; intros resp H; simpl.
  - now intros [= <-].
  - destruct v; try discriminate.
    apply IH. destruct (py_eq_int _ _); [|exact H].
    now apply record_match_blocks.
Qed.

(** The three subscripts on a well-shaped table. *)
Lemma sessions_items (rsd : rs_entry) (ss : list session) :
  sessions rsd = Some ss ->
  exists its,
    (d <- entry_data rsd ;; p <- getitem d "protocols" ;; items p) = inr its /\
    session_dicts its = Some ss.
Proof.
  unfold sessions, entry_data.
  destruct (data rsd) as [[| | | | |top]|]; try discriminate. simpl.
  destruct (Dict.get String.eqb "protocols" top) as [[| | | | |p]|];
    try discriminate.
  simpl. eauto.
Qed.

Lemma scan_location_spec (loc : string) (loc_data : location_data)
    (acc : location_matches) (resp : matches_t) :
  Dict.mem String.eqb loc resp = false ->
  NoDup (map fst acc ++ map fst loc_data) ->
  Forall (fun re => errored (snd re) = false -> sessions (snd re) <> None)
         loc_data ->
  scan_location loc checked_asn loc_data (attach loc acc resp)
  = inr (attach loc (acc ++ location_rows checked_asn loc_data) resp).
Proof.
  intros Hloc. revert acc.
  induction loc_data as [|[r rsd] rest IH]; intros acc Hnd Hshape; simpl.
  - now rewrite app_nil_r.
  - inversion Hshape as [|? ? Hrsd Hrest]; subst. simpl in Hrsd.
    assert (Hr : Dict.mem String.eqb r acc = false).
    { apply (DictFacts.mem_false_iff _ seq). unfold Dict.keys.
      apply NoDup_remove_2 in Hnd. intros Hin. apply Hnd.
      apply in_or_app. now left. }
    assert (Hnd0 : NoDup (map fst acc ++ map fst rest)).
    { now apply NoDup_remove_1 in Hnd. }
    unfold endpoint_row. destruct (errored rsd) eqn:Eerr; simpl.
    + now apply IH.
    + destruct (sessions rsd) as [ss|] eqn:Ess; [|now elim Hrsd].
      destruct (sessions_items _ _ Ess) as (its & Hits & Hss).
      unfold bind in Hits |- *.
      destruct (entry_data rsd) as [e|dj]; [discriminate|].
      destruct (getitem dj "protocols") as [e|p]; [discriminate|].
      destruct (items p) as [e|its']; [discriminate|].
      injection Hits as ->.
      rewrite (scan_protocols_spec _ _ _ _ _ Hss).
      destruct (find (peers_with checked_asn) ss) as [d|]; simpl.
      * rewrite (record_match_attach _ _ _ _ _ Hloc Hr).
        rewrite IH; [now rewrite <- app_assoc| |exact Hrest].
        rewrite map_app, <- app_assoc. exact Hnd.
      * now apply IH.
Qed.

Lemma scan_location_blocks (loc : string) (loc_data : location_data)
    (resp resp' : matches_t) :
  Forall (fun lm => snd lm <> []) resp ->
  scan_location loc checked_asn loc_data resp = inr resp' ->
  Forall (fun lm => snd lm <> []) resp'.
Proof.
  revert resp. induction loc_data as [|[r rsd] rest IH]; intros resp H; simpl.
  - now intros [= <-].
  - destruct (errored rsd); [now apply IH|].
    intros Hs.
    apply bind_inr in Hs as (dj & _ & Hs).
    apply bind_inr in Hs as (p & _ & Hs).
    apply bind_inr in Hs as (its & _ & Hs).
    apply bind_inr in Hs as (resp1 & H1 & Hs).
    apply (IH resp1); [|exact Hs].
    now apply (scan_protocols_blocks _ _ _ _ _ H H1).
Qed.

Lemma mem_attach (k loc : string) (acc : location_matches) (resp : matches_t) :
  k <> loc -> Dict.mem String.eqb k resp = false ->
  Dict.mem String.eqb k (attach loc acc resp) = false.
Proof.
  intros Hk Hm. destruct acc as [|a acc]; simpl; [exact Hm|].
  unfold Dict.mem. rewrite (DictFacts.get_app_absent _ k resp _ Hm). simpl.
  rewrite (DictFacts.eqb_diff _ seq loc k); [reflexivity|congruence].
Qed.

Lemma scan_spec (rs : route_servers_t) (resp : matches_t) :
  (forall k, In k (map fst rs) -> Dict.mem String.eqb k resp = false) ->
  distinct_keys rs ->
  Forall (fun ld => Forall (fun re => errored (snd re) = false ->
                                      sessions (snd re) <> None) (snd ld)) rs ->
  scan checked_asn rs resp = inr (resp ++ expected_matches checked_asn rs).
Proof.
  revert resp. induction rs as [|[loc ld] rest IH];
    intros resp Hfresh [Hnd Hin] Hshape; simpl.
  - now rewrite app_nil_r.
  - inversion Hnd as [|? ? Hloc Hnd']; subst.
    inversion Hin as [|? ? Hld Hin']; subst.
    inversion Hshape as [|? ? Hs Hshape']; subst. simpl in Hld, Hs.
    assert (Hm : Dict.mem String.eqb loc resp = false)
      by (apply Hfresh; now left).
    change resp with (attach loc [] resp) at 1.
    rewrite (scan_location_spec loc ld [] resp Hm Hld Hs). simpl.
    rewrite IH; [| |now split|exact Hshape'].
    + destruct (location_rows checked_asn ld); simpl;
        [reflexivity|now rewrite <- app_assoc].
    + intros k Hk. apply mem_attach.
      * intros ->. contradiction.
      * apply Hfresh. now right.
Qed.

Lemma scan_blocks (rs : route_servers_t) (resp resp' : matches_t) :
  Forall (fun lm => snd lm <> []) resp ->
  scan checked_asn rs resp = inr resp' ->
  Forall (fun lm => snd lm <> []) resp'.
Proof.
  revert resp. induction rs as [|[loc ld] rest IH]; intros resp H; simpl.
  - now intros [= <-].
  - intros Hs. apply bind_inr in Hs as (resp1 & H1 & Hs).
    apply (IH resp1); [|exact Hs].
    now apply (scan_location_blocks _ _ _ _ H H1).
Qed.
End Scan.

(* ===================================================================== *)
(** ** The lookup on a fetched snapshot *)
(* ===================================================================== *)

Lemma matched_rows_app (a b : matches_t) :
  matched_rows (a ++ b) = matched_rows a ++ matched_rows b.
Proof. unfold matched_rows. apply flat_map_app. Qed.

Lemma matched_rows_attach (loc : string) (acc : location_matches) :
  matched_rows (attach loc acc [])
  = map (fun rr => (loc, fst rr, snd rr)) acc.
Proof.
  destruct acc as [|a acc]; [reflexivity|].
  unfold attach, matched_rows. simpl. now rewrite app_nil_r.
Qed.

Lemma location_rows_endpoints (checked_asn : Z) (loc : string)
    (loc_data : location_data) :
  map (fun rr => (loc, fst rr, snd rr)) (location_rows checked_asn loc_data)
  = flat_map (fun e => opt_list (option_map (pair (fst e))
                                   (endpoint_row checked_asn (snd e))))
      (map (fun re => (loc, fst re, snd re)) loc_data).
Proof.
  induction loc_data as [|[r rsd] rest IH]; simpl; [reflexivity|].
  unfold location_rows in *. simpl. rewrite map_app, IH.
  now destruct (endpoint_row checked_asn rsd).
Qed.

(** The rows of the expected dictionary: one per endpoint with a row. *)
Lemma matched_rows_expected (checked_asn : Z) (rs : route_servers_t) :
  matched_rows (expected_matches checked_asn rs)
  = flat_map (fun e => opt_list (option_map (pair (fst e))
                                   (endpoint_row checked_asn (snd e))))
      (endpoints rs).
Proof.
  induction rs as [|[loc ld] rest IH]; simpl; [reflexivity|].
  rewrite matched_rows_app, matched_rows_attach, IH.
  unfold endpoints at 2. simpl. rewrite flat_map_app. f_equal.
  apply location_rows_endpoints.
Qed.

Lemma matched_rows_nil (resp : matches_t) :
  Forall (fun lm => snd lm <> []) resp ->
  matched_rows resp = [] -> resp = [].
Proof.
  destruct resp as [|[loc inner] rest]; [reflexivity|].
  intros H. inversion H as [|? ? Hinner _]; subst. simpl in Hinner.
  destruct inner; [congruence|discriminate].
Qed.

Lemma rows_nil_iff (checked_asn : Z) (eps : list (string * string * rs_entry)) :
  flat_map (fun e => opt_list (option_map (pair (fst e))
                                 (endpoint_row checked_asn (snd e)))) eps = []
  <-> forall loc r rsd, In (loc, r, rsd) eps ->
                        endpoint_row checked_asn rsd = None.
Proof.
  induction eps as [|[[loc0 r0] rsd0] rest IH]; simpl.
  - split; [intros _ ? ? ? []|reflexivity].
  - split.
    + intros H loc r rsd [Hin|Hin].
      * injection Hin as <- <- <-.
        destruct (endpoint_row checked_asn rsd0); [discriminate|reflexivity].
      * apply app_eq_nil in H as [_ H]. now apply (proj1 IH H loc r).
    + intros H. rewrite (H loc0 r0 rsd0) by now left. simpl.
      apply IH. intros loc r rsd Hin. apply (H loc r). now right.
Qed.

Lemma shape_by_location (rs : route_servers_t) :
  (forall loc r rsd, In (loc, r, rsd) (endpoints rs) ->
     errored rsd = false -> sessions rsd <> None) ->
  Forall (fun ld => Forall (fun re => errored (snd re) = false ->
                                      sessions (snd re) <> None) (snd ld)) rs.
Proof.
  induction rs as [|[loc ld] rest IH]; intros H; constructor.
  - simpl. apply Forall_forall. intros [r rsd] Hin. simpl.
    apply (H loc r). unfold endpoints. simpl. apply in_or_app. left.
    now apply (in_map (fun re => (loc, fst re, snd re)) _ (r, rsd)).
  - apply IH. intros loc' r rsd Hin. apply (H loc' r).
    unfold endpoints. simpl. apply in_or_app. now right.
Qed.

(** The scan in the code's own terms.  On a fetched snapshot whose
    endpoints without an error flag hold session tables, [check_asn]
    returns a dictionary with, in iteration order, exactly one row for
    every (location, route server) that carries no flag and whose table has
    a session of the ASN (the row of the first such session) and no row for
    any other pair; the dictionary is empty, which [on_message] reports as
    not found, exactly when no endpoint has such a row.  An endpoint that
    carries a flag from an earlier refresh gets no row even when this
    refresh fetched its table (see [check_asn_misses_endpoint_flagged_earlier]). *)
Theorem check_asn_one_row_per_endpoint (net : net_t) (checked_asn : Z)
    (w w' : world) (rs : route_servers_t) :
  get_responses net w = inr (rs, w') ->
  distinct_keys rs ->
  (forall loc r rsd, In (loc, r, rsd) (endpoints rs) ->
     errored rsd = false -> sessions rsd <> None) ->
  exists resp,
    check_asn net checked_asn w = inr (resp, w') /\
    matched_rows resp
    = flat_map (fun e => opt_list (option_map (pair (fst e))
                                     (endpoint_row checked_asn (snd e))))
        (endpoints rs) /\
    (resp = [] <->
     forall loc r rsd, In (loc, r, rsd) (endpoints rs) ->
                       endpoint_row checked_asn rsd = None).
Proof.
  intros Hget Hkeys Hshape.
  assert (Hscan : scan checked_asn rs []
                  = inr (expected_matches checked_asn rs)).
  { apply (scan_spec checked_asn rs []); auto using shape_by_location. }
  exists (expected_matches checked_asn rs). split; [|split].
  - unfold check_asn. rewrite Hget. simpl. now rewrite Hscan.
  - apply matched_rows_expected.
  - rewrite <- rows_nil_iff, <- matched_rows_expected. split.
    + now intros ->.
    + apply matched_rows_nil.
      apply (scan_blocks checked_asn rs [] _ (Forall_nil _) Hscan).
Qed.

Ltac distinct_strings :=
  repeat constructor; simpl; intuition discriminate.

Ltac each_endpoint Hin :=
  repeat (destruct Hin as [Hin|Hin];
          [injection Hin as <- <- <-; vm_compute;
           try (intros _; discriminate); try discriminate|]);
  try contradiction.

Lemma check_asn_one_row_per_endpoint_witness :
  exists resp,
    check_asn steady_net 64500 fresh_world = inr (resp, steady_world) /\
    matched_rows resp
    = flat_map (fun e => opt_list (option_map (pair (fst e))
                                     (endpoint_row 64500 (snd e))))
        (endpoints steady_snapshot) /\
    (resp = [] <->
     forall loc r rsd, In (loc, r, rsd) (endpoints steady_snapshot) ->
                       endpoint_row 64500 rsd = None).
Proof.
  apply (check_asn_one_row_per_endpoint steady_net 64500 fresh_world
           steady_world steady_snapshot).
  - vm_compute. reflexivity.
  - split; distinct_strings.
  - intros loc r rsd Hin. simpl in Hin. each_endpoint Hin.
Defined.

(** Two sessions of the ASN in one table: the first is kept. *)
Example duplicate_sessions_first_kept :
  (w <- init demo_env duplicate_net ;;
   '(resp, _) <- check_asn duplicate_net 64500 w ;;
   ret resp)
  = inr [("SYD", [("rs1", {| asn := 64500; name := JStr "First";
                             state := JStr "Established" |})])].
Proof. vm_compute. reflexivity. Qed.

(** C4 (the code departs from the claim).  SYD/rs1 refused the connection
    while the directory was constructed.  The refresh of the lookup
    fetches from SYD/rs1 and from MEL/rs1 a table with AS64500, so both
    tables of the fetched snapshot contain the number; the lookup returns
    the row of MEL/rs1 alone, because the flag SYD/rs1 was given by the
    earlier refresh is still in its entry. *)
Theorem check_asn_misses_endpoint_flagged_earlier :
  requests_get_json late_net 12 (Some "http://SYD_RS1") = inr table_64500 /\
  (w <- init demo_env late_net ;;
   '(resp, w') <- check_asn late_net 64500 w ;;
   ret (matched_rows resp,
        endpoint "SYD" "rs1" (route_servers w'),
        endpoint "MEL" "rs1" (route_servers w')))
  = inr ([("MEL", "rs1", {| asn := 64500; name := JStr "ExampleNet";
                            state := JStr "Established" |})],
         Some {| url := Some "http://SYD_RS1"; data := Some table_64500;
                 error := Some true |},
         Some {| url := Some "http://MEL_RS1"; data := Some table_64500;
                 error := None |}).
Proof. split; vm_compute; reflexivity. Qed.

(** The specification's scenario: one row, for SYD/rs1. *)
Example steady_lookup_rows :
  (w <- init demo_env steady_net ;;
   '(resp, _) <- check_asn steady_net 64500 w ;;
   ret (matched_rows resp))
  = inr [("SYD", "rs1", {| asn := 64500; name := JStr "ExampleNet";
                           state := JStr "Established" |})].
Proof. vm_compute. reflexivity. Qed.

(* ===================================================================== *)
(** ** Numbers within the conversion limit *)
(* ===================================================================== *)

Lemma digit_val_range (c : ascii) (d : Z) :
  digit_val c = Some d -> 0 <= d <= 9.
Proof.
  unfold digit_val.
  destruct (Nat.leb 48 (nat_of_ascii c) && Nat.leb (nat_of_ascii c) 57) eqn:E;
    [|discriminate].
  apply andb_true_iff in E as [E1 E2].
  apply Nat.leb_le in E1, E2. intros [= <-]. lia.
Qed.

(** The value of a well-formed digit text lies between its prefix followed
    by zeros and its prefix followed by nines. *)
Lemma digits_bound (l : list ascii) (b : bool) (acc v : Z) :
  digits b acc l = Some v -> 0 <= acc ->
  acc * 10 ^ Z.of_nat (digit_count l) <= v
  < (acc + 1) * 10 ^ Z.of_nat (digit_count l).
Proof.
  revert b acc. induction l as [|c r IH]; intros b acc; cbn [digits].
  - destruct b; [|discriminate]. intros [= <-] _.
    change (digit_count []) with 0%nat. rewrite Z.pow_0_r. lia.
  - assert (Hc : digit_count (c :: r)
                 = if is_digit c then S (digit_count r) else digit_count r).
    { unfold digit_count. cbn [filter]. now destruct (is_digit c). }
    rewrite Hc. unfold is_digit.
    destruct (digit_val c) as [d|] eqn:Ed.
    + intros H Hacc. pose proof (digit_val_range _ _ Ed) as Hd.
      assert (Hacc' : 0 <= 10 * acc + d) by lia.
      specialize (IH _ _ H Hacc').
      rewrite Nat2Z.inj_succ, Z.pow_succ_r by lia.
      set (P := 10 ^ Z.of_nat (digit_count r)) in *.
      assert (HP : 0 < P) by (apply Z.pow_pos_nonneg; lia).
      clearbody P. nia.
    + destruct (Ascii.eqb c "_" && b); [|discriminate].
      intros H Hacc. apply (IH _ _ H Hacc).
Qed.

Lemma int_of_digits_fits (l : list ascii) (v : Z) :
  int_of_digits l = Some v -> 0 <= v < int_limit.
Proof.
  unfold int_of_digits, int_limit.
  destruct (digits false 0 l) as [v0|] eqn:E; [|discriminate].
  destruct (Nat.leb (digit_count l) max_str_digits) eqn:El; [|discriminate].
  intros [= <-]. apply Nat.leb_le in El.
  pose proof (digits_bound l false 0 v0 E (Z.le_refl 0)) as [H1 H2].
  assert (Hmono : 10 ^ Z.of_nat (digit_count l) <= 10 ^ Z.of_nat max_str_digits)
    by (apply Z.pow_le_mono_r; lia).
  set (P := 10 ^ Z.of_nat (digit_count l)) in *.
  set (Q := 10 ^ Z.of_nat max_str_digits) in *.
  clearbody P Q. lia.
Qed.

(** What [int] accepts can be written out again. *)
Lemma py_int_fits (s : string) (z : Z) : py_int s = Some z -> fits z = true.
Proof.
  unfold py_int, fits. destruct (strip (list_ascii_of_string s)) as [|c r];
    [discriminate|].
  destruct (Ascii.eqb c "-").
  - destruct (int_of_digits r) as [v|] eqn:E; [|discriminate].
    intros [= <-]. apply int_of_digits_fits in E.
    apply Z.ltb_lt. rewrite Z.abs_opp, Z.abs_eq; lia.
  - assert (H : forall l, int_of_digits l = Some z ->
                          Z.ltb (Z.abs z) int_limit = true).
    { intros l E. apply int_of_digits_fits in E.
      apply Z.ltb_lt. rewrite Z.abs_eq; lia. }
    destruct (Ascii.eqb c "+"); apply H.
Qed.

Lemma int_convert_fits (s : string) (z : Z) :
  _int_convert s = IsInt z -> fits z = true.
Proof.
  unfold _int_convert. destruct (py_int s) as [v|] eqn:E; [|discriminate].
  intros [= <-]. now apply (py_int_fits s).
Qed.

Lemma say_not_present_fits (z : Z) :
  fits z = true -> say_not_present z = inr (not_present z).
Proof. unfold say_not_present, format_int. now intros ->. Qed.

Lemma say_not_present_long (z : Z) :
  fits z = false -> say_not_present z = inl ValueError.
Proof. unfold say_not_present, format_int. now intros ->. Qed.

Lemma say_not_present_inv (z : Z) (r : body * json) :
  say_not_present z = inr r -> fits z = true /\ r = not_present z.
Proof.
  destruct (fits z) eqn:E.
  - rewrite (say_not_present_fits z E). intros [= <-]. now split.
  - now rewrite (say_not_present_long z E).
Qed.

(* ===================================================================== *)
(** ** [on_message] *)
(* ===================================================================== *)

Section OnMessage.
Variable net : net_t.

(** Every location of a dictionary built by [check_asn] has a row. *)
Lemma check_asn_blocks (z : Z) (w w' : world) (resp : matches_t) :
  check_asn net z w = inr (resp, w') ->
  Forall (fun lm => snd lm <> []) resp.
Proof.
  unfold check_asn. intros H.
  apply bind_inr in H as ([rs w1] & _ & H).
  apply bind_inr in H as (resp1 & Hscan & H).
  injection H as <- _.
  apply (scan_blocks z rs [] _ (Forall_nil _) Hscan).
Qed.

(** The renderer is defined on every non-empty dictionary that
    [check_asn] returns: its loop body runs at least once. *)
Lemma check_asn_parse_defined (z : Z) (w w' : world) (resp : matches_t) :
  check_asn net z w = inr (resp, w') -> resp <> [] ->
  exists r, parse resp = inr r.
Proof.
  intros H Hne.
  assert (Hrows : matched_rows resp <> []).
  { intros Hnil. apply Hne.
    now apply matched_rows_nil; [apply (check_asn_blocks _ _ _ _ H)|]. }
  rewrite (parse_rows_value resp
             ("", "", {| asn := 0; name := JNull; state := JNull |}) Hrows).
  eauto.
Qed.

(** The three ways a lookup can end: an answer, an exception of the
    refresh and scan, or a number with no match that is too long to be
    written into the not-present text. *)
Lemma lookup_outcomes (z : Z) (w : world) :
  (exists r w', lookup net z w = inr (r, w')) \/
  (exists e, check_asn net z w = inl e /\ lookup net z w = inl e) \/
  (exists w', check_asn net z w = inr ([], w') /\ fits z = false /\
              lookup net z w = inl ValueError).
Proof.
  unfold lookup. destruct (Z.eqb z 1221); [left; unfold ret; eauto|].
  destruct (check_asn net z w) as [e|[resp w']] eqn:E; cbn [bind].
  - right. left. eauto.
  - destruct resp as [|b resp]; cbn [List.length Nat.eqb].
    + destruct (fits z) eqn:Ef.
      * left. rewrite (say_not_present_fits z Ef). unfold ret, bind. eauto.
      * right. right. exists w'.
        rewrite (say_not_present_long z Ef). auto.
    + left.
      destruct (check_asn_parse_defined _ _ _ _ E) as [r Hr]; [discriminate|].
      rewrite Hr. unfold ret, bind. eauto.
Qed.

(** Text that converts to a non-zero integer is looked up as that
    integer. *)
Lemma on_message_text_as_int (s : string) (z : Z) (w : world) :
  _int_convert s = IsInt z -> z <> 0 ->
  on_message net (AStr s) w = on_message net (AInt z) w.
Proof.
  intros Hs Hz. unfold on_message. rewrite Hs. simpl.
  now rewrite (proj2 (Z.eqb_neq z 0) Hz).
Qed.

(** Found or not found: the answer to an integer other than 1221. *)
Lemma lookup_answer (z : Z) (w w' : world) (resp : matches_t) :
  z <> 1221 -> check_asn net z w = inr (resp, w') ->
  lookup net z w
  = match resp with
    | [] => r <- say_not_present z ;; ret (r, w')
    | _ :: _ => r <- parse resp ;; ret (r, w')
    end.
Proof.
  intros Hz H. unfold lookup.
  rewrite (proj2 (Z.eqb_neq z 1221) Hz), H. cbn [bind].
  now destruct resp.
Qed.

Lemma not_present_is_not_invalid (z : Z) : not_present z <> invalid_input.
Proof.
  unfold not_present, not_present_text, invalid_input. simpl. discriminate.
Qed.

Lemma lookup_is_not_invalid (z : Z) (w w' : world) (r : body * json) :
  lookup net z w = inr (r, w') -> r <> invalid_input.
Proof.
  unfold lookup. destruct (Z.eqb z 1221).
  - intros [= <- _]. discriminate.
  - intros H. apply bind_inr in H as ([resp w1] & _ & H).
    destruct (Nat.eqb (List.length resp) 0).
    + apply bind_inr in H as (r1 & Hs & H). injection H as <- _.
      apply say_not_present_inv in Hs as [_ ->].
      apply not_present_is_not_invalid.
    + apply bind_inr in H as (r1 & Hp & H). injection H as <- _.
      unfold parse in Hp. destruct (parse_rows resp [] None) as [tbl [row|]];
        [|discriminate].
      injection Hp as <-. discriminate.
Qed.
End OnMessage.

(** C3, the claim as stated fails: ["1221"] converts to an integer, and
    [on_message] answers without a refresh or a scan (no request is
    issued, the directory is left as it was). *)
Lemma on_message_1221_answers_without_refresh :
  _int_convert "1221" = IsInt 1221 /\
  on_message steady_net (AStr "1221") steady_world
  = inr (no_chance, steady_world).
Proof. split; vm_compute; reflexivity. Qed.

(** C3, amended.  Text that fails the conversion gets the invalid-input
    answer, with no request issued and nothing raised.  Text that converts
    to an integer other than 0 and 1221 is not answered with invalid input:
    [on_message] refreshes and scans ([check_asn]) and answers from the
    result.  Text that converts to 1221 gets the fixed answer without a
    refresh. *)
Theorem on_message_text (net : net_t) (s : string) (w : world) :
  (_int_convert s = IsFalse ->
   on_message net (AStr s) w = inr (invalid_input, w)) /\
  (forall z, _int_convert s = IsInt z -> z <> 0 -> z <> 1221 ->
     on_message net (AStr s) w
     = ('(resp, w') <- check_asn net z w ;;
        if Nat.eqb (List.length resp) 0 then ret (not_present z, w')
        else r <- parse resp ;; ret (r, w')) /\
     forall r w', on_message net (AStr s) w = inr (r, w') ->
                  r <> invalid_input) /\
  (_int_convert s = IsInt 1221 ->
   on_message net (AStr s) w = inr (no_chance, w)).
Proof.
  split; [|split].
  - intros Hs. unfold on_message. now rewrite Hs.
  - intros z Hs Hz Hz'.
    rewrite (on_message_text_as_int net s z w Hs Hz). simpl. split.
    + unfold lookup. rewrite (proj2 (Z.eqb_neq z 1221) Hz').
      destruct (check_asn net z w) as [e|[resp w']]; cbn [bind];
        [reflexivity|].
      destruct (Nat.eqb (List.length resp) 0); [|reflexivity].
      now rewrite (say_not_present_fits z (int_convert_fits s z Hs)).
    + intros r w'. apply lookup_is_not_invalid.
  - intros Hs. unfold on_message. now rewrite Hs.
Qed.

Lemma on_message_text_witness :
  on_message steady_net (AStr "abc") steady_world
  = inr (invalid_input, steady_world) /\
  on_message steady_net (AStr "64500") steady_world
  = ('(resp, w') <- check_asn steady_net 64500 steady_world ;;
     if Nat.eqb (List.length resp) 0 then ret (not_present 64500, w')
     else r <- parse resp ;; ret (r, w')) /\
  on_message steady_net (AStr "1221") steady_world
  = inr (no_chance, steady_world).
Proof.
  split; [|split].
  - apply (proj1 (on_message_text steady_net "abc" steady_world)).
    reflexivity.
  - apply (proj1 (proj2 (on_message_text steady_net "64500" steady_world))
             64500); [reflexivity|lia|lia].
  - apply (proj2 (proj2 (on_message_text steady_net "1221" steady_world))).
    reflexivity.
Defined.

(** C5 (the code departs from the claim).  The decimal string ["0"]
    converts to the integer 0, which [if not asn] takes for a failed
    conversion: the string gets the invalid-input answer, the integer is
    looked up. *)
Theorem on_message_zero_text_differs :
  _int_convert "0" = IsInt 0 /\
  (r <- on_message steady_net (AStr "0") steady_world ;; ret (fst r))
  = inr invalid_input /\
  (r <- on_message steady_net (AInt 0) steady_world ;; ret (fst r))
  = inr (not_present 0).
Proof. repeat split; vm_compute; reflexivity. Qed.

(** C9 (the code departs from the claim).  SYD/rs1 refused the connection
    while the directory was constructed.  In the refresh of the lookup it
    serves a table with AS64500 and SYD/rs2 a body that is not JSON; the
    scan skips SYD/rs1 for its old flag and the answer is "not present". *)
Theorem lookup_skips_recovered_endpoint :
  requests_get_json recovering_net 12 (Some "http://SYD_RS1")
  = inr table_64500 /\
  requests_get_json recovering_net 13 (Some "http://SYD_RS2")
  = inl JSONDecodeError /\
  (w <- init demo_env recovering_net ;;
   r <- on_message recovering_net (AInt 64500) w ;;
   ret (fst r))
  = inr (not_present 64500).
Proof. repeat split; vm_compute; reflexivity. Qed.

(** With no flag left from an earlier refresh, the malformed endpoint is
    skipped and the healthy one answers. *)
Example lookup_isolates_malformed_endpoint :
  (w <- init demo_env malformed_net ;;
   r <- on_message malformed_net (AInt 64500) w ;;
   ret (fst r, endpoint "SYD" "rs2" (route_servers (snd r))))
  = inr ((Fenced {| field_names := ["City"; "Route Server"; "BGP State"];
                    rows := [[JStr "SYD"; JStr "rs1"; JStr "Established"]] |},
          JStr "ExampleNet"),
         Some {| url := Some "http://SYD_RS2"; data := None;
                 error := Some true |}).
Proof. vm_compute. reflexivity. Qed.

(** C10, the claim as stated fails: an endpoint that answers with the
    empty JSON object makes the scan, and with it [on_message], raise
    [KeyError]. *)
Lemma on_message_raises_on_shapeless_table :
  (w <- init demo_env shapeless_net ;;
   on_message shapeless_net (AInt 64500) w)
  = inl KeyError.
Proof. vm_compute. reflexivity. Qed.

(** An integer of 4301 digits that no endpoint lists: the scan returns,
    and writing the number into the not-present text raises. *)
Example on_message_raises_on_long_integer :
  on_message steady_net (AInt (10 ^ 4300)) steady_world = inl ValueError.
Proof. vm_compute. reflexivity. Qed.

(** C10, amended.  A call of [on_message] returns a pair (body, caption)
    unless the refresh and scan ([check_asn]) for the number of the call
    raise, in which case it raises the same exception, or the argument is
    an integer beyond the conversion limit for which the scan finds no
    match, in which case writing it into the not-present text raises
    [ValueError].  The renderer itself never raises: it is only reached
    with a non-empty match dictionary, whose last row binds the loop
    variable it reads the name from. *)
Theorem on_message_never_raises_in_parse (net : net_t) (a : arg) (w : world) :
  (exists r w', on_message net a w = inr (r, w')) \/
  (exists z e, asked a = Some z /\ check_asn net z w = inl e /\
               on_message net a w = inl e) \/
  (exists z w', a = AInt z /\ check_asn net z w = inr ([], w') /\
                fits z = false /\ on_message net a w = inl ValueError).
Proof.
  destruct a as [z|s]; cbn [on_message asked].
  - destruct (lookup_outcomes net z w) as [H|[(e & H)|(w' & H)]].
    + now left.
    + right. left. exists z, e. now split.
    + right. right. exists z, w'. now split.
  - destruct (py_not (_int_convert s)) eqn:En; [left; unfold ret; eauto|].
    destruct (_int_convert s) as [z|] eqn:Es; [|discriminate].
    cbn [as_int].
    destruct (lookup_outcomes net z w) as [H|[(e & H)|(w' & _ & Hf & _)]].
    + now left.
    + right. left. exists z, e. now split.
    + rewrite (int_convert_fits s z Es) in Hf. discriminate.
Qed.

Lemma steady_world_constructed : init demo_env steady_net = inr steady_world.
Proof. vm_compute. reflexivity. Qed.

(* ===================================================================== *)
(** ** The index views *)
(* ===================================================================== *)

Lemma filter_snoc {A} (p : A -> bool) (l : list A) (x : A) :
  filter p (l ++ [x]) = filter p l ++ (if p x then [x] else []).
Proof. rewrite filter_app. simpl. now destruct (p x). Qed.

Lemma index_entry_snoc (l : list encounter) (x : encounter) :
  index_entry (l ++ [x])
  = Some {| descr := enc_descr x;
            locs := match index_entry l with
                    | Some old => locs old
                    | None => []
                    end ++ [enc_label x] |}.
Proof.
  destruct l as [|e es]; simpl; [reflexivity|].
  now rewrite last_last, map_app.
Qed.

Lemma last_entry_snoc (l : list (key * ip_entry)) (x : key * ip_entry) :
  last_entry (l ++ [x]) = Some (snd x).
Proof. destruct l as [|e es]; simpl; [reflexivity|]. now rewrite last_last. Qed.

(** What the dictionary built from a list of encounters holds at a key. *)
Lemma fold_add_encounter (encs : list encounter) (a : key) :
  Dict.get key_eqb a (fold_left add_encounter encs [])
  = index_entry (filter (fun e => key_eqb (enc_key e) a) encs).
Proof.
  induction encs as [|x encs IH] using rev_ind; [reflexivity|].
  rewrite fold_left_app, filter_snoc. simpl. unfold add_encounter at 1.
  rewrite (DictFacts.get_set _ key_eqb_eq).
  destruct (key_eqb (enc_key x) a) eqn:E.
  - rewrite index_entry_snoc, <- IH.
    apply key_eqb_eq in E. now rewrite E.
  - now rewrite app_nil_r.
Qed.

Lemma fold_add_ip (encs : list (key * ip_entry)) (a : key) :
  Dict.get key_eqb a (fold_left add_ip encs [])
  = last_entry (filter (fun e => key_eqb (fst e) a) encs).
Proof.
  induction encs as [|x encs IH] using rev_ind; [reflexivity|].
  rewrite fold_left_app, filter_snoc. simpl. unfold add_ip at 1.
  rewrite (DictFacts.get_set _ key_eqb_eq).
  destruct (key_eqb (fst x) a).
  - now rewrite last_entry_snoc.
  - now rewrite app_nil_r.
Qed.

#[local] Arguments asns_session : simpl never.
#[local] Arguments ips_session : simpl never.

Lemma asns_session_spec (loc rs : string) (d : session) (acc : asn_index) :
  hashable (dget d "neighbor_as") = true ->
  asns_session loc rs (JDict d) acc
  = inr (fold_left add_encounter (session_encounter loc rs d) acc).
Proof.
  unfold asns_session, session_encounter.
  destruct (dget d "neighbor_as"); simpl; try discriminate; reflexivity.
Qed.

Lemma ips_session_spec (loc : string) (d : session) (acc : ip_index) :
  hashable (dget d "neighbor_address") = true ->
  ips_session loc (JDict d) acc = inr (fold_left add_ip (session_ip loc d) acc).
Proof.
  unfold ips_session, session_ip.
  destruct (dget d "neighbor_address"); simpl; try discriminate; reflexivity.
Qed.

Lemma asns_protocols_spec (loc rs : string) (its : list (string * json))
    (ss : list session) (acc : asn_index) :
  session_dicts its = Some ss ->
  Forall (fun d => hashable (dget d "neighbor_as") = true) ss ->
  asns_protocols loc rs its acc
  = inr (fold_left add_encounter (flat_map (session_encounter loc rs) ss) acc).
Proof.
  revert ss acc. induction its as [|[k v] rest IH]; intros ss acc; simpl.
  - intros [= <-] _. reflexivity.
  - destruct v; try discriminate.
    destruct (session_dicts rest) as [ss'|]; [|discriminate].
    simpl. intros [= <-] H. inversion H as [|? ? Hd Hss]; subst.
    rewrite (asns_session_spec _ _ _ _ Hd). simpl.
    rewrite (IH ss' _ eq_refl Hss). now rewrite fold_left_app.
Qed.

Lemma ips_protocols_spec (loc : string) (its : list (string * json))
    (ss : list session) (acc : ip_index) :
  session_dicts its = Some ss ->
  Forall (fun d => hashable (dget d "neighbor_address") = true) ss ->
  ips_protocols loc its acc
  = inr (fold_left add_ip (flat_map (session_ip loc) ss) acc).
Proof.
  revert ss acc. induction its as [|[k v] rest IH]; intros ss acc; simpl.
  - intros [= <-] _. reflexivity.
  - destruct v; try discriminate.
    destruct (session_dicts rest) as [ss'|]; [|discriminate].
    simpl. intros [= <-] H. inversion H as [|? ? Hd Hss]; subst.
    rewrite (ips_session_spec _ _ _ Hd). simpl.
    rewrite (IH ss' _ eq_refl Hss). now rewrite fold_left_app.
Qed.

Lemma indexable_by_location (field : string) (rs : route_servers_t) :
  indexable field rs ->
  Forall (fun ld => indexable_entries field (snd ld)) rs.
Proof.
  unfold indexable.
  induction rs as [|[loc ld] rest IH]; intros H; constructor.
  - simpl. apply Forall_forall. intros [r rsd] Hin. simpl.
    apply (H loc r). unfold endpoints. simpl. apply in_or_app. left.
    now apply (in_map (fun re => (loc, fst re, snd re)) _ (r, rsd)).
  - apply IH. intros loc' r rsd Hin. apply (H loc' r).
    unfold endpoints. simpl. apply in_or_app. now right.
Qed.

Lemma asns_location_spec (loc : string) (loc_data : location_data)
    (acc : asn_index) :
  indexable_entries "neighbor_as" loc_data ->
  asns_location loc loc_data acc
  = inr (fold_left add_encounter
           (flat_map (fun re => flat_map (session_encounter loc (fst re))
                                  (endpoint_sessions (snd re))) loc_data)
           acc).
Proof.
  revert acc. induction loc_data as [|[r rsd] rest IH]; intros acc H; simpl.
  - reflexivity.
  - inversion H as [|? ? Hrsd Hrest]; subst. simpl in Hrsd.
    rewrite fold_left_app. simpl fst. simpl snd.
    destruct (populated rsd) eqn:Ep;
      [|replace (endpoint_sessions rsd) with (@nil session)
          by (unfold endpoint_sessions; now rewrite Ep);
        now apply IH].
    destruct (Hrsd eq_refl) as (ss & Hss & Hhash).
    replace (endpoint_sessions rsd) with ss
      by (unfold endpoint_sessions; now rewrite Ep, Hss).
    destruct (sessions_items _ _ Hss) as (its & Hits & Hdicts).
    unfold bind in Hits |- *.
    destruct (entry_data rsd) as [e|dj]; [discriminate|].
    destruct (getitem dj "protocols") as [e|p]; [discriminate|].
    destruct (items p) as [e|its']; [discriminate|].
    injection Hits as ->.
    rewrite (asns_protocols_spec _ _ _ _ _ Hdicts Hhash).
    now apply IH.
Qed.

Lemma ips_location_spec (loc : string) (loc_data : location_data)
    (acc : ip_index) :
  indexable_entries "neighbor_address" loc_data ->
  ips_location loc loc_data acc
  = inr (fold_left add_ip
           (flat_map (fun re => flat_map (session_ip loc)
                                  (endpoint_sessions (snd re))) loc_data)
           acc).
Proof.
  revert acc. induction loc_data as [|[r rsd] rest IH]; intros acc H; simpl.
  - reflexivity.
  - inversion H as [|? ? Hrsd Hrest]; subst. simpl in Hrsd.
    rewrite fold_left_app. simpl fst. simpl snd.
    destruct (populated rsd) eqn:Ep;
      [|replace (endpoint_sessions rsd) with (@nil session)
          by (unfold endpoint_sessions; now rewrite Ep);
        now apply IH].
    destruct (Hrsd eq_refl) as (ss & Hss & Hhash).
    replace (endpoint_sessions rsd) with ss
      by (unfold endpoint_sessions; now rewrite Ep, Hss).
    destruct (sessions_items _ _ Hss) as (its & Hits & Hdicts).
    unfold bind in Hits |- *.
    destruct (entry_data rsd) as [e|dj]; [discriminate|].
    destruct (getitem dj "protocols") as [e|p]; [discriminate|].
    destruct (items p) as [e|its']; [discriminate|].
    injection Hits as ->.
    rewrite (ips_protocols_spec _ _ _ _ Hdicts Hhash).
    now apply IH.
Qed.

Lemma flat_map_endpoints {B} (f : string * string * rs_entry -> list B)
    (loc : string) (loc_data : location_data) (rest : route_servers_t) :
  flat_map f (endpoints ((loc, loc_data) :: rest))
  = flat_map (fun re => f (loc, fst re, snd re)) loc_data
    ++ flat_map f (endpoints rest).
Proof.
  unfold endpoints. simpl. rewrite flat_map_app. f_equal.
  induction loc_data as [|re ld IH]; simpl; [reflexivity|]. now rewrite IH.
Qed.

Lemma asns_from_spec (rs : route_servers_t) (acc : asn_index) :
  indexable "neighbor_as" rs ->
  asns_from rs acc = inr (fold_left add_encounter (asn_encounters rs) acc).
Proof.
  intros H. apply indexable_by_location in H. revert acc.
  induction H as [|[loc ld] rest Hld _ IH]; intros acc; simpl.
  - reflexivity.
  - rewrite (asns_location_spec _ _ _ Hld). simpl. rewrite IH.
    unfold asn_encounters. rewrite flat_map_endpoints.
    now rewrite fold_left_app.
Qed.

Lemma ips_from_spec (rs : route_servers_t) (acc : ip_index) :
  indexable "neighbor_address" rs ->
  ips_from rs acc = inr (fold_left add_ip (ip_encounters rs) acc).
Proof.
  intros H. apply indexable_by_location in H. revert acc.
  induction H as [|[loc ld] rest Hld _ IH]; intros acc; simpl.
  - reflexivity.
  - rewrite (ips_location_spec _ _ _ Hld). simpl. rewrite IH.
    unfold ip_encounters. rewrite flat_map_endpoints.
    now rewrite fold_left_app.
Qed.

(** A session without the field contributes nothing to the view. *)
Lemma session_encounter_absent (loc rs : string) (d : session) :
  dget d "neighbor_as" = JNull -> session_encounter loc rs d = [].
Proof. unfold session_encounter. now intros ->. Qed.

Lemma session_ip_absent (loc : string) (d : session) :
  dget d "neighbor_address" = JNull -> session_ip loc d = [].
Proof. unfold session_ip. now intros ->. Qed.

(** The ASN view in the code's own terms.  [asns] scans the tables of the
    entries that hold one (['data'] is there and not [None], flagged or
    not) in iteration order; each session with a [neighbor_as] is one
    encounter of that ASN.  The view maps an ASN to the description of its
    last encounter and to the labels "location - route server" of all its
    encounters, in encounter order; an ASN never encountered has no
    entry. *)
Theorem asns_last_description_all_labels (w : world) :
  indexable "neighbor_as" (route_servers w) ->
  exists idx,
    asns w = inr idx /\
    forall a,
      Dict.get key_eqb a idx
      = index_entry (filter (fun e => key_eqb (enc_key e) a)
                       (asn_encounters (route_servers w))).
Proof.
  intros H. exists (fold_left add_encounter (asn_encounters (route_servers w)) []).
  split.
  - unfold asns. now apply asns_from_spec.
  - intros a. apply fold_add_encounter.
Qed.

(** The address view in the code's own terms.  [ips] scans the same
    tables; each session with a [neighbor_address] is one encounter of that
    address.  The view maps an address to the description and location of
    its last encounter alone; an address never encountered has no
    entry. *)
Theorem ips_last_write_wins (w : world) :
  indexable "neighbor_address" (route_servers w) ->
  exists idx,
    ips w = inr idx /\
    forall ip,
      Dict.get key_eqb ip idx
      = last_entry (filter (fun e => key_eqb (fst e) ip)
                      (ip_encounters (route_servers w))).
Proof.
  intros H. exists (fold_left add_ip (ip_encounters (route_servers w)) []).
  split.
  - unfold ips. now apply ips_from_spec.
  - intros ip. apply fold_add_ip.
Qed.

Ltac each_populated Hin :=
  repeat (destruct Hin as [Hin|Hin];
          [injection Hin as <- <- <-;
           let Hp := fresh "Hp" in
           intros Hp; vm_compute in Hp;
           first [discriminate Hp
                 |eexists; split; [reflexivity|repeat constructor]]|]);
  try contradiction.

Lemma asns_last_description_all_labels_witness :
  exists idx,
    asns two_descriptions = inr idx /\
    forall a,
      Dict.get key_eqb a idx
      = index_entry (filter (fun e => key_eqb (enc_key e) a)
                       (asn_encounters (route_servers two_descriptions))).
Proof.
  apply (asns_last_description_all_labels two_descriptions).
  intros loc r rsd Hin. vm_compute in Hin. each_populated Hin.
Defined.

Lemma ips_last_write_wins_witness :
  exists idx,
    ips two_descriptions = inr idx /\
    forall ip,
      Dict.get key_eqb ip idx
      = last_entry (filter (fun e => key_eqb (fst e) ip)
                      (ip_encounters (route_servers two_descriptions))).
Proof.
  apply (ips_last_write_wins two_descriptions).
  intros loc r rsd Hin. vm_compute in Hin. each_populated Hin.
Defined.

(** The specification's example: "Foo" on the first endpoint, "Bar" on the
    second. *)
Example asns_two_descriptions :
  asns two_descriptions
  = inr [(KInt 65000, {| descr := JStr "Bar";
                         locs := ["SYD - rs1"; "MEL - rs1"] |})].
Proof. vm_compute. reflexivity. Qed.

Example ips_two_descriptions :
  ips two_descriptions
  = inr [(KStr "192.0.2.7", {| ip_descr := JStr "Bar"; ip_loc := "MEL" |})].
Proof. vm_compute. reflexivity. Qed.

(** C7 (the code departs from the claim).  The directory was constructed
    while SYD/rs1 served AS64500; in the next refresh no endpoint can be
    reached, so every endpoint is errored.  [asns] still lists AS64500 at
    "SYD - rs1": it scans every entry that holds a table, and the table of
    the earlier refresh was never removed from the errored entry. *)
Theorem asns_indexes_errored_endpoint :
  ('(_, w') <- _load_bird_data dark_net steady_world ;;
   idx <- asns w' ;;
   ret (endpoint "SYD" "rs1" (route_servers w'), idx))
  = inr (Some {| url := Some "http://SYD_RS1"; data := Some table_64500;
                 error := Some true |},
         [(KInt 64500, {| descr := JStr "ExampleNet";
                          locs := ["SYD - rs1"] |})]).
Proof. vm_compute. reflexivity. Qed.

(** C8 (the code departs from the claim).  In the same situation [ips]
    still maps 203.0.113.1 to the peer of SYD: the address comes from the
    table of an entry that the last refresh marked errored. *)
Theorem ips_indexes_errored_endpoint :
  ('(_, w') <- _load_bird_data dark_net steady_world ;;
   idx <- ips w' ;;
   ret (endpoint "SYD" "rs1" (route_servers w'), idx))
  = inr (Some {| url := Some "http://SYD_RS1"; data := Some table_64500;
                 error := Some true |},
         [(KStr "203.0.113.1", {| ip_descr := JStr "ExampleNet";
                                  ip_loc := "SYD" |})]).
Proof. vm_compute. reflexivity. Qed.

(** The views test ['data'], the lookup tests ['error']: an endpoint that
    carries both is indexed by [asns] and skipped by [check_asn]. *)
Example asns_reads_flagged_endpoint :
  (w1 <- init demo_env recovering_net ;;
   '(_, w2) <- _load_bird_data recovering_net w1 ;;
   idx <- asns w2 ;;
   '(resp, _) <- check_asn recovering_net 64500 w2 ;;
   ret (Dict.get key_eqb (KInt 64500) idx, resp))
  = inr (Some {| descr := JStr "ExampleNet"; locs := ["SYD - rs1"] |}, []).
Proof. vm_compute. reflexivity. Qed.

(** A variable that is not set: the request raises an exception the
    [except] clause does not name, and the constructor raises it. *)
Example init_raises_on_unset_url :
  init unset_env schema_net = inl MissingSchema.
Proof. vm_compute. reflexivity. Qed.

Lemma two_descriptions_constructed :
  init demo_env foo_bar_net = inr two_descriptions.
Proof. vm_compute. reflexivity. Qed.

(** The concrete scenario of the specification, call by call. *)
Example specification_scenario :
  (r <- on_message steady_net (AInt 64500) steady_world ;; ret (fst r))
  = inr (Fenced {| field_names := ["City"; "Route Server"; "BGP State"];
                   rows := [[JStr "SYD"; JStr "rs1"; JStr "Established"]] |},
         JStr "ExampleNet")
  /\ on_message steady_net (AStr "64500") steady_world
     = on_message steady_net (AInt 64500) steady_world
  /\ (r <- on_message steady_net (AInt 9999) steady_world ;; ret (fst r))
     = inr (not_present 9999)
  /\ (r <- on_message steady_net (AStr "abc") steady_world ;; ret (fst r))
     = inr invalid_input.
Proof. repeat split; vm_compute; reflexivity. Qed.

(* ===================================================================== *)
(** ** What every refresh keeps *)
(* ===================================================================== *)

Section RefreshFacts.
Variable net : net_t.

Lemma fetch_url (n : nat) (rsd rsd' : rs_entry) :
  fetch net n rsd = inr rsd' -> url rsd' = url rsd.
Proof.
  intros H. apply fetch_outcome in H.
  destruct (net n (url rsd)) as [e|r]; [|destruct (json_body r)];
    now subst rsd'.
Qed.

Lemma fetch_keeps_table (n : nat) (rsd rsd' : rs_entry) :
  fetch net n rsd = inr rsd' -> data rsd <> None -> data rsd' <> None.
Proof.
  intros H. apply fetch_outcome in H.
  destruct (net n (url rsd)) as [e|r]; [|destruct (json_body r)];
    subst rsd'; simpl; auto. discriminate.
Qed.

(** A refresh that returns went through every entry in turn. *)
Lemma load_location_inv (loc_data loc_data' : location_data) (n n' : nat) :
  load_location net n loc_data = inr (loc_data', n') ->
  n' = (n + List.length loc_data)%nat /\
  List.length loc_data' = List.length loc_data /\
  forall i r rsd, nth_error loc_data i = Some (r, rsd) ->
    exists rsd', nth_error loc_data' i = Some (r, rsd') /\
                 fetch net (n + i) rsd = inr rsd'.
Proof.
  revert loc_data' n n'.
  induction loc_data as [|[r0 rsd0] rest IH]; intros ld' n n'; simpl.
  - intros [= <- <-]. rewrite Nat.add_0_r. repeat split.
    intros [|i] ? ? H; discriminate.
  - intros H. apply bind_inr in H as (rsd0' & H0 & H).
    apply bind_inr in H as ([rest' n1] & Hrest & H).
    injection H as <- <-.
    destruct (IH _ _ _ Hrest) as (-> & Hlen & Hnth). repeat split.
    + lia.
    + simpl. now rewrite Hlen.
    + intros [|i] r rsd; simpl.
      * intros [= <- <-]. rewrite Nat.add_0_r. eauto.
      * intros H. destruct (Hnth _ _ _ H) as (rsd' & H1 & H2).
        exists rsd'. split; [exact H1|].
        now replace (n + S i)%nat with (S n + i)%nat by lia.
Qed.

Lemma load_all_inv (rs rs' : route_servers_t) (n n' : nat) :
  load_all net n rs = inr (rs', n') ->
  n' = (n + List.length (endpoints rs))%nat /\
  map fst rs' = map fst rs /\
  List.length (endpoints rs') = List.length (endpoints rs) /\
  forall i loc r rsd, nth_error (endpoints rs) i = Some (loc, r, rsd) ->
    exists rsd', nth_error (endpoints rs') i = Some (loc, r, rsd') /\
                 fetch net (n + i) rsd = inr rsd'.
Proof.
  revert rs' n n'. induction rs as [|[loc0 ld] rest IH]; intros rs' n n'; simpl.
  - intros [= <- <-]. rewrite Nat.add_0_r. repeat split.
    intros [|i] ? ? ? H; discriminate.
  - intros H. apply bind_inr in H as ([ld' n1] & Hld & H).
    apply bind_inr in H as ([rest' n2] & Hrest & H).
    injection H as <- <-.
    destruct (load_location_inv _ _ _ _ Hld) as (-> & Hlen & Hnth).
    destruct (IH _ _ _ Hrest) as (-> & Hk & Hlen' & Hnth').
    unfold endpoints in *. simpl. rewrite !length_app, !length_map.
    repeat split.
    + lia.
    + now rewrite Hk.
    + now rewrite Hlen, Hlen'.
    + intros i loc r rsd.
      destruct (Nat.lt_ge_cases i (List.length ld)) as [Hi|Hi].
      * rewrite !nth_error_app1 by (rewrite length_map; lia).
        rewrite !nth_error_map.
        destruct (nth_error ld i) as [[r1 rsd1]|] eqn:E; simpl; [|discriminate].
        intros [= <- <- <-].
        destruct (Hnth _ _ _ E) as (rsd' & H1 & H2).
        exists rsd'. rewrite H1. simpl. auto.
      * rewrite !nth_error_app2 by (rewrite length_map; lia).
        rewrite !length_map, Hlen. intros H.
        destruct (Hnth' _ _ _ _ H) as (rsd' & H1 & H2).
        exists rsd'. split; [exact H1|].
        now replace (n + i)%nat
          with (n + List.length ld + (i - List.length ld))%nat by lia.
Qed.

(** The same, read from the refreshed dictionary. *)
Lemma load_all_inv_back (rs rs' : route_servers_t) (n n' : nat) :
  load_all net n rs = inr (rs', n') ->
  forall i loc r rsd', nth_error (endpoints rs') i = Some (loc, r, rsd') ->
    exists rsd, nth_error (endpoints rs) i = Some (loc, r, rsd) /\
                fetch net (n + i) rsd = inr rsd'.
Proof.
  intros H i loc r rsd' Hi.
  destruct (load_all_inv _ _ _ _ H) as (_ & _ & Hlen & Hnth).
  destruct (nth_error (endpoints rs) i) as [[[loc0 r0] rsd0]|] eqn:E.
  - destruct (Hnth _ _ _ _ E) as (rsd1 & H1 & H2).
    rewrite Hi in H1. injection H1 as <- <- <-. eauto.
  - apply nth_error_None in E.
    assert (Hsome : nth_error (endpoints rs') i <> None) by congruence.
    apply nth_error_Some in Hsome. lia.
Qed.

Lemma load_bird_data_inv (w w' : world) (rs' : route_servers_t) :
  _load_bird_data net w = inr (rs', w') ->
  route_servers w' = rs' /\
  load_all net (requests w) (route_servers w) = inr (rs', requests w').
Proof.
  unfold _load_bird_data. intros H.
  apply bind_inr in H as ([rs1 n1] & Hl & H). injection H as <- <-.
  now split.
Qed.
End RefreshFacts.

(** X1.  A refresh that returns hands back the very dictionary it leaves in
    the directory, with the same locations and route servers in the same
    order; every entry keeps its URL, keeps an error flag it had, and keeps
    having a table if it had one. *)
Theorem load_bird_data_never_removes (net : net_t) (w w' : world)
    (rs' : route_servers_t) :
  _load_bird_data net w = inr (rs', w') ->
  route_servers w' = rs' /\
  map fst rs' = map fst (route_servers w) /\
  forall i loc r rsd,
    nth_error (endpoints (route_servers w)) i = Some (loc, r, rsd) ->
    exists rsd',
      nth_error (endpoints rs') i = Some (loc, r, rsd') /\
      url rsd' = url rsd /\
      (errored rsd = true -> errored rsd' = true) /\
      (data rsd <> None -> data rsd' <> None).
Proof.
  intros H. apply load_bird_data_inv in H as [Hrs Hload].
  destruct (load_all_inv _ _ _ _ _ Hload) as (_ & Hk & _ & Hnth).
  repeat split; auto.
  intros i loc r rsd Hi. destruct (Hnth _ _ _ _ Hi) as (rsd' & H1 & H2).
  exists rsd'. repeat split; auto.
  - now apply (fetch_url _ _ _ _ H2).
  - now apply (fetch_keeps_error _ _ _ _ H2).
  - now apply (fetch_keeps_table _ _ _ _ H2).
Qed.

Lemma load_bird_data_never_removes_witness :
  route_servers {| route_servers := steady_snapshot; requests := 24 |}
  = steady_snapshot /\
  map fst steady_snapshot = map fst (route_servers steady_world) /\
  forall i loc r rsd,
    nth_error (endpoints (route_servers steady_world)) i = Some (loc, r, rsd) ->
    exists rsd',
      nth_error (endpoints steady_snapshot) i = Some (loc, r, rsd') /\
      url rsd' = url rsd /\
      (errored rsd = true -> errored rsd' = true) /\
      (data rsd <> None -> data rsd' <> None).
Proof.
  apply (load_bird_data_never_removes steady_net steady_world
           {| route_servers := steady_snapshot; requests := 24 |}
           steady_snapshot).
  vm_compute. reflexivity.
Defined.

(** X2.  After a refresh that returns, every entry has a table or the
    error flag, and an entry without the flag holds exactly the document
    that its own request of this refresh returned. *)
Theorem load_bird_data_settles_every_endpoint (net : net_t) (w w' : world)
    (rs' : route_servers_t) (i : nat) (loc r : string) (rsd' : rs_entry) :
  _load_bird_data net w = inr (rs', w') ->
  nth_error (endpoints rs') i = Some (loc, r, rsd') ->
  (data rsd' <> None \/ error rsd' = Some true) /\
  (errored rsd' = false ->
   exists j, requests_get_json net (requests w + i) (url rsd') = inr j /\
             data rsd' = Some j).
Proof.
  intros H Hi. apply load_bird_data_inv in H as [_ Hload].
  destruct (load_all_inv_back _ _ _ _ _ Hload _ _ _ _ Hi) as (rsd & _ & Hf).
  split.
  - now apply (fetch_sets_one _ _ _ _ Hf).
  - intros He. rewrite (fetch_url _ _ _ _ Hf).
    now apply (fetch_fresh _ _ _ _ Hf).
Qed.

Lemma load_bird_data_settles_every_endpoint_witness :
  (data {| url := Some "http://SYD_RS1"; data := Some table_64500;
           error := None |} <> None
   \/ error {| url := Some "http://SYD_RS1"; data := Some table_64500;
               error := None |} = Some true) /\
  (errored {| url := Some "http://SYD_RS1"; data := Some table_64500;
              error := None |} = false ->
   exists j,
     requests_get_json steady_net (requests fresh_world + 0)
       (url {| url := Some "http://SYD_RS1"; data := Some table_64500;
               error := None |}) = inr j /\
     data {| url := Some "http://SYD_RS1"; data := Some table_64500;
             error := None |} = Some j).
Proof.
  apply (load_bird_data_settles_every_endpoint steady_net fresh_world
           steady_world steady_snapshot 0 "SYD" "rs1").
  - vm_compute. reflexivity.
  - vm_compute. reflexivity.
Defined.

Lemma init_entries_fresh (getenv : string -> option string)
    (loc r : string) (rsd : rs_entry) :
  In (loc, r, rsd) (endpoints (init_route_servers getenv)) ->
  data rsd = None /\ error rsd = None.
Proof.
  simpl. intros H.
  repeat (destruct H as [H|H]; [injection H as <- <- <-; now split|]).
  contradiction.
Qed.

(** X3.  A constructor that returns has issued exactly twelve requests,
    one per endpoint of the literal, and leaves every endpoint with
    exactly one of the two: a table and no flag, or the flag and no
    table. *)
Theorem init_one_of_table_and_flag (getenv : string -> option string)
    (net : net_t) (w : world) :
  init getenv net = inr w ->
  requests w = 12%nat /\
  map fst (endpoints (route_servers w))
  = [("SYD", "rs1"); ("SYD", "rs2"); ("MEL", "rs1"); ("MEL", "rs2");
     ("ADL", "rs1"); ("ADL", "rs2"); ("BNE", "rs1"); ("BNE", "rs2");
     ("PER", "rs1"); ("PER", "rs2"); ("DRW", "rs1"); ("HBA", "rs1")] /\
  forall loc r rsd, In (loc, r, rsd) (endpoints (route_servers w)) ->
    (data rsd <> None /\ error rsd = None) \/
    (data rsd = None /\ error rsd = Some true).
Proof.
  unfold init, get_responses. intros H.
  apply bind_inr in H as ([rs' w'] & Hload & H). injection H as <-.
  apply load_bird_data_inv in Hload as [<- Hload].
  cbn [requests route_servers] in Hload.
  destruct (load_all_inv _ _ _ _ _ Hload) as (Hn & _ & Hlen & Hnth).
  split; [exact Hn|]. split.
  - apply nth_error_ext. intros i. rewrite nth_error_map.
    destruct (nth_error (endpoints (init_route_servers getenv)) i)
      as [[[loc r] rsd]|] eqn:E.
    + destruct (Hnth _ _ _ _ E) as (rsd' & -> & _). simpl.
      change (Some (loc, r)) with (option_map fst (Some (loc, r, rsd))).
      rewrite <- E, <- nth_error_map. reflexivity.
    + apply nth_error_None in E. rewrite <- Hlen in E.
      apply nth_error_None in E. rewrite E. simpl. symmetry.
      apply nth_error_None. apply nth_error_None in E.
      rewrite Hlen in E. exact E.
  - intros loc r rsd' Hin. apply In_nth_error in Hin as [i Hi].
    destruct (load_all_inv_back _ _ _ _ _ Hload _ _ _ _ Hi) as (rsd & Hold & Hf).
    apply nth_error_In in Hold.
    destruct (init_entries_fresh _ _ _ _ Hold) as [Hd He].
    apply fetch_outcome in Hf.
    destruct (net (0 + i)%nat (url rsd)) as [e|resp];
      [|destruct (json_body resp)]; subst rsd'; simpl; rewrite ?Hd, ?He.
    + now right.
    + left. split; [discriminate|reflexivity].
    + now right.
Qed.

Lemma init_one_of_table_and_flag_witness :
  requests steady_world = 12%nat /\
  map fst (endpoints (route_servers steady_world))
  = [("SYD", "rs1"); ("SYD", "rs2"); ("MEL", "rs1"); ("MEL", "rs2");
     ("ADL", "rs1"); ("ADL", "rs2"); ("BNE", "rs1"); ("BNE", "rs2");
     ("PER", "rs1"); ("PER", "rs2"); ("DRW", "rs1"); ("HBA", "rs1")] /\
  forall loc r rsd, In (loc, r, rsd) (endpoints (route_servers steady_world)) ->
    (data rsd <> None /\ error rsd = None) \/
    (data rsd = None /\ error rsd = Some true).
Proof.
  apply (init_one_of_table_and_flag demo_env steady_net steady_world).
  vm_compute. reflexivity.
Defined.

(* ===================================================================== *)
(** ** Exceptions the [except] clause does not name *)
(* ===================================================================== *)

Section Uncaught.
Variable net : net_t.

Lemma fetch_raises (n : nat) (rsd : rs_entry) (e : exn) :
  requests_get_json net n (url rsd) = inl e -> caught e = false ->
  fetch net n rsd = inl e.
Proof. unfold fetch. intros -> ->. reflexivity. Qed.

Lemma fetch_returns_if (n : nat) (rsd : rs_entry) :
  (forall e, requests_get_json net n (url rsd) = inl e -> caught e = true) ->
  exists rsd', fetch net n rsd = inr rsd'.
Proof.
  unfold fetch, ret. intros H.
  destruct (requests_get_json net n (url rsd)) as [e|j]; [|eauto].
  rewrite (H e eq_refl). eauto.
Qed.

Lemma load_location_returns_if (loc_data : location_data) (n : nat) :
  (forall j r rsd, nth_error loc_data j = Some (r, rsd) ->
     exists x, fetch net (n + j) rsd = inr x) ->
  exists loc_data',
    load_location net n loc_data
    = inr (loc_data', (n + List.length loc_data)%nat).
Proof.
  revert n. induction loc_data as [|[r0 rsd0] rest IH]; intros n H; simpl.
  - exists []. now rewrite Nat.add_0_r.
  - destruct (H 0%nat r0 rsd0 eq_refl) as [x Hx].
    rewrite Nat.add_0_r in Hx. rewrite Hx. simpl.
    destruct (IH (S n)) as [rest' Hrest].
    { intros j r rsd Hj. destruct (H (S j) r rsd Hj) as [y Hy].
      exists y. now replace (S n + j)%nat with (n + S j)%nat by lia. }
    rewrite Hrest. simpl. eexists.
    now replace (n + S (List.length rest))%nat
      with (S n + List.length rest)%nat by lia.
Qed.

Lemma load_location_raises (loc_data : location_data) (n i : nat)
    (r : string) (rsd : rs_entry) (e : exn) :
  nth_error loc_data i = Some (r, rsd) ->
  fetch net (n + i) rsd = inl e ->
  (forall j r' rsd', (j < i)%nat -> nth_error loc_data j = Some (r', rsd') ->
     exists x, fetch net (n + j) rsd' = inr x) ->
  load_location net n loc_data = inl e.
Proof.
  revert n i. induction loc_data as [|[r0 rsd0] rest IH]; intros n i.
  - destruct i; discriminate.
  - destruct i as [|i]; simpl.
    + intros [= <- <-]. rewrite Nat.add_0_r. now intros ->.
    + intros Hi He Hbefore.
      destruct (Hbefore 0%nat r0 rsd0 (Nat.lt_0_succ i) eq_refl) as [x Hx].
      rewrite Nat.add_0_r in Hx. rewrite Hx. simpl.
      rewrite (IH (S n) i Hi); [reflexivity| |].
      * now replace (S n + i)%nat with (n + S i)%nat by lia.
      * intros j r' rsd' Hj Hn.
        destruct (Hbefore (S j) r' rsd' (proj1 (Nat.succ_lt_mono j i) Hj) Hn)
          as [y Hy].
        exists y. now replace (S n + j)%nat with (n + S j)%nat by lia.
Qed.

Lemma load_all_raises (rs : route_servers_t) (n i : nat)
    (loc r : string) (rsd : rs_entry) (e : exn) :
  nth_error (endpoints rs) i = Some (loc, r, rsd) ->
  fetch net (n + i) rsd = inl e ->
  (forall j loc' r' rsd', (j < i)%nat ->
     nth_error (endpoints rs) j = Some (loc', r', rsd') ->
     exists x, fetch net (n + j) rsd' = inr x) ->
  load_all net n rs = inl e.
Proof.
  revert n i. induction rs as [|[loc0 ld] rest IH]; intros n i.
  - destruct i; discriminate.
  - unfold endpoints. simpl. fold (endpoints rest).
    destruct (Nat.lt_ge_cases i (List.length ld)) as [Hi|Hi].
    + rewrite nth_error_app1 by (rewrite length_map; lia).
      rewrite nth_error_map.
      destruct (nth_error ld i) as [[r1 rsd1]|] eqn:E; simpl; [|discriminate].
      intros [= <- <- <-] He Hbefore.
      rewrite (load_location_raises ld n i r1 rsd1 e E He); [reflexivity|].
      intros j r' rsd' Hj Hn. apply (Hbefore j loc0 r' rsd' Hj).
      rewrite nth_error_app1 by (rewrite length_map; lia).
      now rewrite nth_error_map, Hn.
    + rewrite nth_error_app2 by (rewrite length_map; lia).
      rewrite length_map. intros Hn He Hbefore.
      destruct (load_location_returns_if ld n) as [ld' Hld].
      { intros j r' rsd' Hj.
        assert (Hlt : (j < List.length ld)%nat)
          by (apply nth_error_Some; congruence).
        apply (Hbefore j loc0 r' rsd'); [lia|].
        rewrite nth_error_app1 by (rewrite length_map; lia).
        now rewrite nth_error_map, Hj. }
      rewrite Hld. simpl.
      rewrite (IH (n + List.length ld)%nat (i - List.length ld)%nat Hn);
        [reflexivity| |].
      * now replace (n + List.length ld + (i - List.length ld))%nat
          with (n + i)%nat by lia.
      * intros j loc' r' rsd' Hj Hnj.
        destruct (Hbefore (List.length ld + j)%nat loc' r' rsd') as [y Hy];
          [lia| |].
        { rewrite nth_error_app2 by (rewrite length_map; lia).
          rewrite length_map.
          now replace (List.length ld + j - List.length ld)%nat with j by lia. }
        exists y.
        now replace (n + List.length ld + j)%nat
          with (n + (List.length ld + j))%nat by lia.
Qed.
End Uncaught.

(** X4.  The first request of a refresh that raises an exception other
    than a connection error or a JSON decode error ends the refresh: the
    exception leaves [_load_bird_data], and with it every [on_message]
    call that gets as far as the refresh. *)
Theorem load_bird_data_passes_on_other_exceptions (net : net_t) (w : world)
    (i : nat) (loc r : string) (rsd : rs_entry) (e : exn) :
  nth_error (endpoints (route_servers w)) i = Some (loc, r, rsd) ->
  requests_get_json net (requests w + i) (url rsd) = inl e ->
  caught e = false ->
  (forall j loc' r' rsd' e', (j < i)%nat ->
     nth_error (endpoints (route_servers w)) j = Some (loc', r', rsd') ->
     requests_get_json net (requests w + j) (url rsd') = inl e' ->
     caught e' = true) ->
  _load_bird_data net w = inl e /\
  (forall z, z <> 1221 -> on_message net (AInt z) w = inl e).
Proof.
  intros Hi He Hc Hbefore.
  assert (Hload : _load_bird_data net w = inl e).
  { unfold _load_bird_data.
    rewrite (load_all_raises net _ _ i loc r rsd e Hi); [reflexivity| |].
    - now apply fetch_raises.
    - intros j loc' r' rsd' Hj Hn. apply fetch_returns_if.
      intros e'. now apply (Hbefore j loc' r' rsd' e'). }
  split; [exact Hload|].
  intros z Hz. simpl. unfold lookup, check_asn, get_responses.
  now rewrite (proj2 (Z.eqb_neq z 1221) Hz), Hload.
Qed.

Lemma load_bird_data_passes_on_other_exceptions_witness :
  _load_bird_data schema_net
    {| route_servers := init_route_servers unset_env; requests := 0 |}
  = inl MissingSchema /\
  (forall z, z <> 1221 ->
     on_message schema_net (AInt z)
       {| route_servers := init_route_servers unset_env; requests := 0 |}
     = inl MissingSchema).
Proof.
  apply (load_bird_data_passes_on_other_exceptions schema_net
           {| route_servers := init_route_servers unset_env; requests := 0 |}
           11 "HBA" "rs1" (fresh_entry None) MissingSchema).
  - reflexivity.
  - reflexivity.
  - reflexivity.
  - intros j loc' r' rsd' e' Hj Hn Hr.
    do 11 (destruct j as [|j];
           [injection Hn as <- <- <-; vm_compute in Hr; discriminate Hr|]).
    lia.
Defined.

(* ===================================================================== *)
(** ** What an answer of [on_message] looks like and costs *)
(* ===================================================================== *)

Section Answers.
Variable net : net_t.

Lemma check_asn_inv (z : Z) (w w' : world) (resp : matches_t) :
  check_asn net z w = inr (resp, w') ->
  exists rs, _load_bird_data net w = inr (rs, w') /\ scan z rs [] = inr resp.
Proof.
  unfold check_asn, get_responses. intros H.
  apply bind_inr in H as ([rs w1] & Hload & H).
  apply bind_inr in H as (resp1 & Hscan & H).
  injection H as <- <-. eauto.
Qed.

Lemma lookup_inv (z : Z) (w w' : world) (r : body * json) :
  lookup net z w = inr (r, w') ->
  (z = 1221 /\ r = no_chance /\ w' = w) \/
  (z <> 1221 /\
   exists resp, check_asn net z w = inr (resp, w') /\
                ((resp = [] /\ r = not_present z) \/
                 (resp <> [] /\ parse resp = inr r))).
Proof.
  unfold lookup. destruct (Z.eqb z 1221) eqn:Ez.
  - apply Z.eqb_eq in Ez. intros [= <- <-]. now left.
  - apply Z.eqb_neq in Ez. intros H. right. split; [exact Ez|].
    apply bind_inr in H as ([resp w1] & Hc & H).
    destruct resp as [|b resp]; simpl in H.
    + apply bind_inr in H as (r1 & Hs & H). injection H as <- <-.
      apply say_not_present_inv in Hs as [_ ->].
      exists []. split; [exact Hc|]. now left.
    + apply bind_inr in H as (r1 & Hp & H). injection H as <- <-.
      exists (b :: resp). split; [exact Hc|]. right.
      split; [discriminate|exact Hp].
Qed.

Lemma on_message_inv (a : arg) (w w' : world) (r : body * json) :
  on_message net a w = inr (r, w') ->
  (r = invalid_input /\ w' = w) \/ exists z, lookup net z w = inr (r, w').
Proof.
  destruct a as [z|s]; simpl.
  - intros H. right. eauto.
  - destruct (py_not (_int_convert s)).
    + intros [= <- <-]. now left.
    + intros H. right. eauto.
Qed.

Lemma parse_inv (z : Z) (w w' : world) (resp : matches_t) (r : body * json) :
  check_asn net z w = inr (resp, w') -> resp <> [] -> parse resp = inr r ->
  matched_rows resp <> [] /\
  r = (Fenced {| field_names := ["City"; "Route Server"; "BGP State"];
                 rows := map table_row (matched_rows resp) |},
       name (snd (List.last (matched_rows resp)
                    ("", "", {| asn := 0; name := JNull; state := JNull |})))).
Proof.
  intros Hc Hne Hp.
  assert (Hrows : matched_rows resp <> []).
  { intros Hnil. apply Hne.
    now apply matched_rows_nil; [apply (check_asn_blocks _ _ _ _ _ Hc)|]. }
  split; [exact Hrows|].
  rewrite (parse_rows_value resp
             ("", "", {| asn := 0; name := JNull; state := JNull |}) Hrows)
    in Hp.
  now injection Hp as <-.
Qed.
End Answers.



Lemma not_present_is_not_no_chance (z : Z) : not_present z <> no_chance.
Proof. unfold not_present, no_chance. intros H. discriminate H. Qed.

(** X6.  An answer of [on_message] costs no request at all when it is the
    invalid-input text or the fixed text for AS1221, and the directory is
    then left as it was; every other answer costs exactly one request per
    endpoint. *)
Theorem on_message_request_count (net : net_t) (a : arg) (w w' : world)
    (r : body * json) :
  on_message net a w = inr (r, w') ->
  (w' = w /\ (r = invalid_input \/ r = no_chance)) \/
  (requests w'
   = (requests w + List.length (endpoints (route_servers w)))%nat /\
   r <> invalid_input /\ r <> no_chance).
Proof.
  intros H. apply on_message_inv in H as [[-> ->]|[z H]]; [left; auto|].
  apply lookup_inv in H as [(_ & -> & ->)|(_ & resp & Hc & Hr)];
    [left; auto|].
  right. pose proof Hc as Hc'.
  apply check_asn_inv in Hc' as (rs & Hload & _).
  apply load_bird_data_inv in Hload as [_ Hload].
  destruct (load_all_inv _ _ _ _ _ Hload) as (Hn & _). split; [exact Hn|].
  destruct Hr as [[_ ->]|[Hne Hp]].
  - split; [apply not_present_is_not_invalid|apply not_present_is_not_no_chance].
  - destruct (parse_inv net z w w' resp r Hc Hne Hp) as [_ ->].
    split; discriminate.
Qed.

Lemma on_message_request_count_witness :
  ({| route_servers := steady_snapshot; requests := 24 |} = steady_world /\
   (not_present 9999 = invalid_input \/ not_present 9999 = no_chance)) \/
  (requests {| route_servers := steady_snapshot; requests := 24 |}
   = (requests steady_world
      + List.length (endpoints (route_servers steady_world)))%nat /\
   not_present 9999 <> invalid_input /\ not_present 9999 <> no_chance).
Proof.
  apply (on_message_request_count steady_net (AInt 9999) steady_world
           {| route_servers := steady_snapshot; requests := 24 |}).
  vm_compute. reflexivity.
Defined.

(* ===================================================================== *)
(** ** Flags are never cleared *)
(* ===================================================================== *)

Lemma load_all_keys (net : net_t) (rs rs' : route_servers_t) (n n' : nat) :
  load_all net n rs = inr (rs', n') ->
  map fst (endpoints rs') = map fst (endpoints rs).
Proof.
  intros H. destruct (load_all_inv _ _ _ _ _ H) as (_ & _ & Hlen & Hnth).
  apply nth_error_ext. intros i. rewrite !nth_error_map.
  destruct (nth_error (endpoints rs) i) as [[[loc r] rsd]|] eqn:E.
  - now destruct (Hnth _ _ _ _ E) as (rsd' & -> & _).
  - apply nth_error_None in E. rewrite <- Hlen in E.
    apply nth_error_None in E. now rewrite E.
Qed.

Lemma endpoints_cons (loc : string) (ld : location_data)
    (rest : route_servers_t) :
  endpoints ((loc, ld) :: rest)
  = map (fun re => (loc, fst re, snd re)) ld ++ endpoints rest.
Proof. reflexivity. Qed.

Lemma in_endpoints_location (rs : route_servers_t) (loc r : string)
    (rsd : rs_entry) :
  In (loc, r, rsd) (endpoints rs) -> In loc (map fst rs).
Proof.
  induction rs as [|[loc0 ld] rest IH]; [contradiction|].
  rewrite endpoints_cons. intros H. apply in_app_or in H as [H|H].
  - apply in_map_iff in H as ([r1 rsd1] & [= <- _ _] & _). now left.
  - right. now apply IH.
Qed.

(** Distinct keys at both levels: distinct (location, route server) pairs. *)
Lemma distinct_endpoints (rs : route_servers_t) :
  distinct_keys rs -> NoDup (map fst (endpoints rs)).
Proof.
  intros [Hnd Hin]. induction rs as [|[loc ld] rest IH]; [constructor|].
  inversion Hnd as [|? ? Hloc Hnd']; subst.
  inversion Hin as [|? ? Hld Hin']; subst. simpl in Hld.
  rewrite endpoints_cons, map_app. apply NoDup_app.
  - rewrite map_map. simpl.
    clear - Hld. induction ld as [|[r rsd] ld IHld]; [constructor|].
    inversion Hld as [|? ? Hr Hld']; subst. simpl. constructor.
    + intros H. apply in_map_iff in H as ([r1 rsd1] & [= <-] & H1).
      apply Hr. now apply (in_map fst _ (r1, rsd1)).
    + now apply IHld.
  - now apply IH.
  - intros [loc1 r1] H1 H2.
    apply in_map_iff in H1 as ([[loc2 r2] rsd2] & E1 & H1).
    apply in_map_iff in H1 as ([r3 rsd3] & E3 & _).
    apply in_map_iff in H2 as ([[loc4 r4] rsd4] & E4 & H2).
    simpl in E1, E3, E4.
    assert (loc4 = loc) by congruence. subst loc4.
    apply Hloc. now apply (in_endpoints_location rest loc r4 rsd4).
Qed.

Lemma distinct_endpoint_entry (eps : list (string * string * rs_entry))
    (k : string * string) (a b : rs_entry) :
  NoDup (map fst eps) -> In (k, a) eps -> In (k, b) eps -> a = b.
Proof.
  induction eps as [|[k0 c] eps IH]; [contradiction|].
  simpl. intros Hnd. inversion Hnd as [|? ? Hk Hnd']; subst.
  intros [Ha|Ha] [Hb|Hb].
  - congruence.
  - injection Ha as -> _. elim Hk. now apply (in_map fst _ (k, b)).
  - injection Hb as -> _. elim Hk. now apply (in_map fst _ (k, a)).
  - now apply IH.
Qed.

Section RowsComeFromUnflagged.
Variable checked_asn : Z.

Lemma get_In {V} (k : string) (v : V) (d : list (string * V)) :
  Dict.get String.eqb k d = Some v -> In (k, v) d.
Proof.
  induction d as [|[k0 v0] d IH]; simpl; [discriminate|].
  destruct (String.eqb k0 k) eqn:E.
  - apply String.eqb_eq in E. intros [= ->]. left. now subst.
  - intros H. right. now apply IH.
Qed.

Lemma set_In {V} (k : string) (v : V) (d : list (string * V))
    (x : string * V) :
  In x (Dict.set String.eqb k v d) -> In x d \/ x = (k, v).
Proof.
  induction d as [|[k0 v0] d IH]; simpl.
  - intros [<-|[]]. now right.
  - destruct (String.eqb k0 k) eqn:E.
    + apply String.eqb_eq in E. subst k0. intros [<-|H]; auto.
    + intros [<-|H]; [auto|]. destruct (IH H); auto.
Qed.

Lemma matched_rows_set (loc : string) (v : location_matches)
    (resp : matches_t) (m : string * string * match_row) :
  In m (matched_rows (Dict.set String.eqb loc v resp)) ->
  In m (matched_rows resp) \/
  In m (map (fun rr => (loc, fst rr, snd rr)) v).
Proof.
  unfold matched_rows. intros H.
  apply in_flat_map in H as ([k inner] & Hin & Hm).
  apply set_In in Hin as [Hin|[= -> ->]].
  - left. apply in_flat_map. eauto.
  - now right.
Qed.

Lemma record_match_rows (loc r : string) (d : session) (resp : matches_t)
    (m : string * string * match_row) :
  In m (matched_rows (record_match loc r checked_asn d resp)) ->
  In m (matched_rows resp) \/ fst m = (loc, r).
Proof.
  rewrite record_match_eq.
  destruct (Dict.get String.eqb loc resp) as [inner|] eqn:E.
  - destruct (Dict.mem String.eqb r inner); [now left|].
    intros H. apply matched_rows_set in H as [H|H]; [now left|].
    apply in_map_iff in H as (rr & <- & Hrr).
    apply set_In in Hrr as [Hrr| ->]; [|now right].
    left. unfold matched_rows. apply in_flat_map.
    exists (loc, inner). split; [now apply get_In|].
    now apply (in_map (fun rr0 => (loc, fst rr0, snd rr0))).
  - intros H. apply matched_rows_set in H as [H|H]; [now left|].
    destruct H as [<-|[]]. now right.
Qed.

Lemma scan_protocols_rows (loc r : string) (its : list (string * json))
    (resp resp' : matches_t) (m : string * string * match_row) :
  scan_protocols loc r checked_asn its resp = inr resp' ->
  In m (matched_rows resp') ->
  In m (matched_rows resp) \/ fst m = (loc, r).
Proof.
  revert resp. induction its as [|[k v] rest IH]; intros resp; simpl.
  - intros [= <-]. now left.
  - destruct v; try discriminate. intros Hs Hm.
    destruct (IH _ Hs Hm) as [H|H]; [|now right].
    destruct (py_eq_int (dget d "neighbor_as") checked_asn); [|now left].
    now apply record_match_rows in H.
Qed.

Lemma scan_location_rows (loc : string) (loc_data : location_data)
    (resp resp' : matches_t) (m : string * string * match_row) :
  scan_location loc checked_asn loc_data resp = inr resp' ->
  In m (matched_rows resp') ->
  In m (matched_rows resp) \/
  exists r rsd, In (r, rsd) loc_data /\ errored rsd = false /\
                fst m = (loc, r).
Proof.
  revert resp. induction loc_data as [|[r rsd] rest IH]; intros resp; simpl.
  - intros [= <-]. now left.
  - destruct (errored rsd) eqn:Ee.
    + intros Hs Hm. destruct (IH _ Hs Hm) as [H|(r1 & rsd1 & H1 & H2)];
        [now left|right; eauto 6].
    + intros Hs Hm.
      apply bind_inr in Hs as (dj & _ & Hs).
      apply bind_inr in Hs as (p & _ & Hs).
      apply bind_inr in Hs as (its & _ & Hs).
      apply bind_inr in Hs as (resp1 & H1 & Hs).
      destruct (IH _ Hs Hm) as [H|(r1 & rsd1 & H2 & H3)];
        [|right; eauto 6].
      destruct (scan_protocols_rows _ _ _ _ _ _ H1 H) as [H'|H'];
        [now left|].
      right. exists r, rsd. auto.
Qed.

Lemma scan_rows (rs : route_servers_t) (resp resp' : matches_t)
    (m : string * string * match_row) :
  scan checked_asn rs resp = inr resp' ->
  In m (matched_rows resp') ->
  In m (matched_rows resp) \/
  exists rsd, In (fst m, rsd) (endpoints rs) /\ errored rsd = false.
Proof.
  revert resp. induction rs as [|[loc ld] rest IH]; intros resp; cbn [scan].
  - intros [= <-]. now left.
  - intros Hs Hm. apply bind_inr in Hs as (resp1 & H1 & Hs).
    rewrite endpoints_cons.
    destruct (IH _ Hs Hm) as [H|(rsd & H2 & H3)].
    + destruct (scan_location_rows _ _ _ _ _ H1 H)
        as [H'|(r & rsd & H2 & H3 & H4)]; [now left|].
      right. exists rsd. split; [|exact H3].
      apply in_or_app. left. rewrite H4.
      now apply (in_map (fun re => (loc, fst re, snd re)) _ (r, rsd)).
    + right. exists rsd. split; [|exact H3]. apply in_or_app. now right.
Qed.

Lemma scan_location_flagged (loc : string) (loc_data : location_data)
    (resp : matches_t) :
  (forall r rsd, In (r, rsd) loc_data -> errored rsd = true) ->
  scan_location loc checked_asn loc_data resp = inr resp.
Proof.
  induction loc_data as [|[r rsd] rest IH]; intros H; simpl; [reflexivity|].
  rewrite (H r rsd) by now left. apply IH. intros r' rsd' Hin.
  apply (H r'). now right.
Qed.

Lemma scan_flagged (rs : route_servers_t) (resp : matches_t) :
  (forall loc r rsd, In (loc, r, rsd) (endpoints rs) -> errored rsd = true) ->
  scan checked_asn rs resp = inr resp.
Proof.
  induction rs as [|[loc ld] rest IH]; intros H; cbn [scan]; [reflexivity|].
  rewrite scan_location_flagged.
  - simpl. apply IH. intros loc' r rsd Hin. apply (H loc' r).
    rewrite endpoints_cons. apply in_or_app. now right.
  - intros r rsd Hin. apply (H loc r). rewrite endpoints_cons.
    apply in_or_app. left.
    now apply (in_map (fun re => (loc, fst re, snd re)) _ (r, rsd)).
Qed.
End RowsComeFromUnflagged.

(** X7.  An endpoint that carries the error flag contributes no row to
    this lookup or to any later one: the refresh of the lookup keeps the
    flag whatever the endpoint answers, and the scan skips it. *)
Theorem check_asn_never_reads_flagged_endpoint (net : net_t) (z : Z)
    (w w' : world) (resp : matches_t) (loc r : string) (rsd : rs_entry) :
  distinct_keys (route_servers w) ->
  In (loc, r, rsd) (endpoints (route_servers w)) ->
  errored rsd = true ->
  check_asn net z w = inr (resp, w') ->
  (forall row, ~ In (loc, r, row) (matched_rows resp)) /\
  exists rsd', In (loc, r, rsd') (endpoints (route_servers w')) /\
               errored rsd' = true.
Proof.
  intros Hkeys Hin Hflag Hc.
  apply check_asn_inv in Hc as (rs' & Hload & Hscan).
  apply load_bird_data_inv in Hload as [Hrs Hload]. subst rs'.
  apply In_nth_error in Hin as [i Hi].
  destruct (load_all_inv _ _ _ _ _ Hload) as (_ & _ & _ & Hnth).
  destruct (Hnth _ _ _ _ Hi) as (rsd' & Hi' & Hf).
  pose proof (fetch_keeps_error _ _ _ _ Hf Hflag) as Hflag'.
  apply nth_error_In in Hi'. split; [|eauto].
  intros row Hrow.
  destruct (scan_rows z _ _ _ _ Hscan Hrow) as [[]|(rsd2 & H2 & H3)].
  simpl in H2.
  assert (Hnd : NoDup (map fst (endpoints (route_servers w')))).
  { rewrite (load_all_keys _ _ _ _ _ Hload). now apply distinct_endpoints. }
  rewrite (distinct_endpoint_entry _ _ _ _ Hnd H2 Hi') in H3. congruence.
Qed.

Lemma flagged_world_constructed :
  init demo_env recovering_net = inr flagged_world.
Proof. vm_compute. reflexivity. Qed.

Lemma check_asn_never_reads_flagged_endpoint_witness :
  (forall row, ~ In ("SYD", "rs1", row) (matched_rows [])) /\
  exists rsd',
    In ("SYD", "rs1", rsd') (endpoints (route_servers flagged_world_after)) /\
    errored rsd' = true.
Proof.
  apply (check_asn_never_reads_flagged_endpoint recovering_net 64500
           flagged_world flagged_world_after [] "SYD" "rs1"
           {| url := Some "http://SYD_RS1"; data := None; error := Some true |}).
  - split; vm_compute; distinct_strings.
  - vm_compute. left. reflexivity.
  - reflexivity.
  - vm_compute. reflexivity.
Defined.

(** X8.  Once every endpoint carries the error flag, every lookup for a
    number other than 1221 answers "not present", whatever the endpoints
    serve from then on, and leaves every endpoint flagged: the directory
    never recovers.  (For an integer beyond the conversion limit the
    not-present text cannot be written, and the lookup raises
    [ValueError] instead.) *)
Theorem on_message_blind_once_all_flagged (net : net_t) (z : Z) (w : world) :
  (forall n u e, net n u = Raise e -> caught e = true) ->
  (forall loc r rsd, In (loc, r, rsd) (endpoints (route_servers w)) ->
     errored rsd = true) ->
  z <> 1221 ->
  exists w',
    on_message net (AInt z) w
    = (if fits z then inr (not_present z, w') else inl ValueError) /\
    forall loc r rsd, In (loc, r, rsd) (endpoints (route_servers w')) ->
                      errored rsd = true.
Proof.
  intros Hnet Hall Hz.
  destruct (load_all_returns net Hnet (route_servers w) (requests w))
    as (rs' & Hload & _ & _).
  set (w' := {| route_servers := rs';
                requests := (requests w
                             + List.length (endpoints (route_servers w)))%nat |}).
  assert (Hall' : forall loc r rsd, In (loc, r, rsd) (endpoints rs') ->
                                    errored rsd = true).
  { intros loc r rsd' Hin. apply In_nth_error in Hin as [i Hi].
    destruct (load_all_inv_back _ _ _ _ _ Hload _ _ _ _ Hi) as (rsd & Ho & Hf).
    apply (fetch_keeps_error _ _ _ _ Hf). apply (Hall loc r).
    now apply nth_error_In in Ho. }
  exists w'. split; [|exact Hall'].
  simpl. unfold lookup, check_asn, get_responses, _load_bird_data.
  rewrite (proj2 (Z.eqb_neq z 1221) Hz), Hload. cbn [bind ret].
  rewrite (scan_flagged z rs' [] Hall'). cbn [bind ret List.length Nat.eqb].
  destruct (fits z) eqn:Ef.
  - now rewrite (say_not_present_fits z Ef).
  - now rewrite (say_not_present_long z Ef).
Qed.

Lemma dark_world_constructed : init demo_env dark_net = inr dark_world.
Proof. vm_compute. reflexivity. Qed.

Lemma on_message_blind_once_all_flagged_witness :
  exists w',
    on_message steady_net (AInt 64500) dark_world
    = inr (not_present 64500, w') /\
    forall loc r rsd, In (loc, r, rsd) (endpoints (route_servers w')) ->
                      errored rsd = true.
Proof.
  apply (on_message_blind_once_all_flagged steady_net 64500 dark_world).
  - intros n u e. unfold steady_net.
    destruct (url_is u "http://SYD_RS1"); [discriminate|].
    intros [= <-]. reflexivity.
  - intros loc r rsd Hin. vm_compute in Hin.
    repeat (destruct Hin as [Hin|Hin]; [injection Hin as <- <- <-; reflexivity|]).
    contradiction.
  - lia.
Defined.

(* ===================================================================== *)
(** ** From the snapshot to the answer *)
(* ===================================================================== *)

Lemma check_asn_on_snapshot (net : net_t) (z : Z) (w w' : world)
    (rs : route_servers_t) :
  get_responses net w = inr (rs, w') ->
  distinct_keys rs ->
  (forall loc r rsd, In (loc, r, rsd) (endpoints rs) ->
     errored rsd = false -> sessions rsd <> None) ->
  check_asn net z w = inr (expected_matches z rs, w') /\
  matched_rows (expected_matches z rs) = lookup_rows z rs.
Proof.
  intros Hget Hkeys Hshape. split.
  - unfold check_asn. rewrite Hget. simpl.
    rewrite (scan_spec z rs []); auto using shape_by_location.
  - apply matched_rows_expected.
Qed.

Lemma lookup_rows_keys (z : Z) (eps : list (string * string * rs_entry))
    (k : string * string) :
  In k (map fst (flat_map (fun e => opt_list (option_map (pair (fst e))
                                     (endpoint_row z (snd e)))) eps)) ->
  In k (map fst eps).
Proof.
  induction eps as [|[k0 rsd0] eps IH]; simpl; [auto|].
  rewrite map_app. intros H. apply in_app_or in H as [H|H].
  - destruct (endpoint_row z rsd0); simpl in H; [|contradiction].
    destruct H as [<-|[]]. now left.
  - right. now apply IH.
Qed.

Lemma lookup_rows_distinct (z : Z) (eps : list (string * string * rs_entry)) :
  NoDup (map fst eps) ->
  NoDup (map fst (flat_map (fun e => opt_list (option_map (pair (fst e))
                                       (endpoint_row z (snd e)))) eps)).
Proof.
  induction eps as [|[k0 rsd0] eps IH]; simpl; [constructor|].
  intros Hnd. inversion Hnd as [|? ? Hk Hnd']; subst.
  rewrite map_app. destruct (endpoint_row z rsd0); simpl; [|now apply IH].
  constructor; [|now apply IH].
  intros H. apply Hk. now apply (lookup_rows_keys z).
Qed.

Lemma lookup_rows_asn (z : Z) (eps : list (string * string * rs_entry)) :
  Forall (fun m => asn (snd m) = z)
    (flat_map (fun e => opt_list (option_map (pair (fst e))
                                    (endpoint_row z (snd e)))) eps).
Proof.
  induction eps as [|[k0 rsd0] eps IH]; simpl; [constructor|].
  apply Forall_app. split; [|exact IH].
  unfold endpoint_row. destruct (errored rsd0); [constructor|].
  destruct (sessions rsd0) as [ss|]; [|constructor].
  destruct (find (peers_with z) ss); constructor; [reflexivity|constructor].
Qed.

(** X9.  In the dictionary [check_asn] returns no (location, route
    server) pair occurs twice, every pair is an endpoint of the directory,
    and every row carries the number that was asked. *)
Theorem check_asn_pairs_distinct (net : net_t) (z : Z) (w w' : world)
    (rs : route_servers_t) :
  get_responses net w = inr (rs, w') ->
  distinct_keys rs ->
  (forall loc r rsd, In (loc, r, rsd) (endpoints rs) ->
     errored rsd = false -> sessions rsd <> None) ->
  exists resp,
    check_asn net z w = inr (resp, w') /\
    NoDup (map fst (matched_rows resp)) /\
    (forall k, In k (map fst (matched_rows resp)) ->
               In k (map fst (endpoints rs))) /\
    Forall (fun m => asn (snd m) = z) (matched_rows resp).
Proof.
  intros Hget Hkeys Hshape.
  destruct (check_asn_on_snapshot net z w w' rs Hget Hkeys Hshape) as [Hc Hrows].
  exists (expected_matches z rs). rewrite Hrows. unfold lookup_rows.
  split; [exact Hc|]. split; [|split].
  - apply lookup_rows_distinct. now apply distinct_endpoints.
  - intros k. apply lookup_rows_keys.
  - apply lookup_rows_asn.
Qed.

Lemma check_asn_pairs_distinct_witness :
  exists resp,
    check_asn steady_net 64500 fresh_world = inr (resp, steady_world) /\
    NoDup (map fst (matched_rows resp)) /\
    (forall k, In k (map fst (matched_rows resp)) ->
               In k (map fst (endpoints steady_snapshot))) /\
    Forall (fun m => asn (snd m) = 64500) (matched_rows resp).
Proof.
  apply (check_asn_pairs_distinct steady_net 64500 fresh_world steady_world
           steady_snapshot).
  - vm_compute. reflexivity.
  - split; distinct_strings.
  - intros loc r rsd Hin. simpl in Hin. each_endpoint Hin.
Defined.

(** X10.  From the snapshot to the answer: for a number other than 1221,
    [on_message] answers "not present" when no unflagged endpoint of the
    fetched snapshot has a session of the number, and otherwise a table
    with one row per such endpoint, in iteration order, captioned with the
    description of the first such session of the last such endpoint.  (For
    an integer beyond the conversion limit the not-present text cannot be
    written, and [ValueError] is raised instead.) *)
Theorem on_message_answer_from_snapshot (net : net_t) (z : Z) (w w' : world)
    (rs : route_servers_t) :
  get_responses net w = inr (rs, w') ->
  distinct_keys rs ->
  (forall loc r rsd, In (loc, r, rsd) (endpoints rs) ->
     errored rsd = false -> sessions rsd <> None) ->
  z <> 1221 ->
  on_message net (AInt z) w
  = match lookup_rows z rs with
    | [] => if fits z then inr (not_present z, w') else inl ValueError
    | _ :: _ =>
        inr ((Fenced {| field_names := ["City"; "Route Server"; "BGP State"];
                        rows := map table_row (lookup_rows z rs) |},
              name (snd (List.last (lookup_rows z rs)
                           ("", "", {| asn := 0; name := JNull;
                                       state := JNull |})))),
             w')
    end.
Proof.
  intros Hget Hkeys Hshape Hz.
  destruct (check_asn_on_snapshot net z w w' rs Hget Hkeys Hshape) as [Hc Hrows].
  simpl. rewrite (lookup_answer net z w w' _ Hz Hc).
  assert (Hblocks : Forall (fun lm : string * location_matches => snd lm <> [])
                      (expected_matches z rs))
    by apply (check_asn_blocks net z w w' _ Hc).
  destruct (lookup_rows z rs) as [|m ms] eqn:El.
  - rewrite (matched_rows_nil _ Hblocks Hrows).
    destruct (fits z) eqn:Ef.
    + now rewrite (say_not_present_fits z Ef).
    + now rewrite (say_not_present_long z Ef).
  - destruct (expected_matches z rs) as [|b resp] eqn:Ee; [discriminate|].
    rewrite (parse_rows_value (b :: resp)
               ("", "", {| asn := 0; name := JNull; state := JNull |}))
      by (rewrite Hrows; discriminate).
    rewrite Hrows. reflexivity.
Qed.

Lemma on_message_answer_from_snapshot_witness :
  on_message steady_net (AInt 64500) fresh_world
  = match lookup_rows 64500 steady_snapshot with
    | [] => inr (not_present 64500, steady_world)
    | _ :: _ =>
        inr ((Fenced {| field_names := ["City"; "Route Server"; "BGP State"];
                        rows := map table_row (lookup_rows 64500 steady_snapshot) |},
              name (snd (List.last (lookup_rows 64500 steady_snapshot)
                           ("", "", {| asn := 0; name := JNull;
                                       state := JNull |})))),
             steady_world)
    end.
Proof.
  apply (on_message_answer_from_snapshot steady_net 64500 fresh_world
           steady_world steady_snapshot).
  - vm_compute. reflexivity.
  - split; distinct_strings.
  - intros loc r rsd Hin. simpl in Hin. each_endpoint Hin.
  - lia.
Defined.

(** X11.  [parse] raises exactly when the dictionary has no row (it is
    empty, or every location in it is), and then it raises
    [UnboundLocalError]: the loop variable it reads after the loops was
    never bound. *)
Theorem parse_raises_iff_no_rows (resp : matches_t) (e : exn) :
  parse resp = inl e <-> (e = UnboundLocalError /\ matched_rows resp = []).
Proof.
  split.
  - intros H. destruct (matched_rows resp) as [|m ms] eqn:E.
    + rewrite (parse_no_rows resp E) in H. injection H as <-. now split.
    + rewrite (parse_rows_value resp m) in H by (rewrite E; discriminate).
      discriminate.
  - intros [-> H]. now apply parse_no_rows.
Qed.

(* ===================================================================== *)
(** ** The views and the lookup on one snapshot *)
(* ===================================================================== *)

Lemma flat_map_nil {A B} (f : A -> list B) (l : list A) :
  flat_map f l = [] <-> forall x, In x l -> f x = [].
Proof.
  induction l as [|a l IH]; simpl.
  - split; [intros _ ? []|reflexivity].
  - split.
    + intros H. apply app_eq_nil in H as [Ha Hl].
      intros x [<-|Hx]; [exact Ha|]. now apply IH.
    + intros H. rewrite (H a) by now left. simpl.
      apply IH. intros x Hx. apply H. now right.
Qed.

Lemma filter_flat_map_nil {A B} (p : B -> bool) (f : A -> list B)
    (l : list A) :
  filter p (flat_map f l) = [] <-> forall x, In x l -> filter p (f x) = [].
Proof.
  induction l as [|a l IH]; simpl.
  - split; [intros _ ? []|reflexivity].
  - rewrite filter_app. split.
    + intros H. apply app_eq_nil in H as [Ha Hl].
      intros x [<-|Hx]; [exact Ha|]. now apply IH.
    + intros H. rewrite (H a) by now left. simpl.
      apply IH. intros x Hx. apply H. now right.
Qed.

Lemma unpopulated_sessions (rsd : rs_entry) :
  populated rsd = false -> endpoint_sessions rsd = [].
Proof. unfold endpoint_sessions. now intros ->. Qed.

(** X12.  On a directory none of whose endpoints holds a table, both
    views are empty dictionaries; they do not raise. *)
Theorem views_empty_without_tables (w : world) :
  (forall loc r rsd, In (loc, r, rsd) (endpoints (route_servers w)) ->
     populated rsd = false) ->
  asns w = inr [] /\ ips w = inr [].
Proof.
  intros H.
  assert (Hix : forall field, indexable field (route_servers w)).
  { intros field loc r rsd Hin Hp. rewrite (H loc r rsd Hin) in Hp.
    discriminate. }
  unfold asns, ips.
  rewrite (asns_from_spec _ _ (Hix "neighbor_as")).
  rewrite (ips_from_spec _ _ (Hix "neighbor_address")).
  assert (Ha : asn_encounters (route_servers w) = []).
  { apply flat_map_nil. intros [[loc r] rsd] Hin. simpl.
    now rewrite (unpopulated_sessions _ (H loc r rsd Hin)). }
  assert (Hi : ip_encounters (route_servers w) = []).
  { apply flat_map_nil. intros [[loc r] rsd] Hin. simpl.
    now rewrite (unpopulated_sessions _ (H loc r rsd Hin)). }
  now rewrite Ha, Hi.
Qed.

Lemma views_empty_without_tables_witness :
  asns dark_world = inr [] /\ ips dark_world = inr [].
Proof.
  apply (views_empty_without_tables dark_world).
  intros loc r rsd Hin. vm_compute in Hin.
  repeat (destruct Hin as [Hin|Hin]; [injection Hin as <- <- <-; reflexivity|]).
  contradiction.
Defined.

(** A session's number as [check_asn] compares it and as [asns] keys it. *)
Lemma peers_with_key (loc r : string) (z : Z) (d : session) :
  hashable (dget d "neighbor_as") = true ->
  filter (fun e => key_eqb (enc_key e) (KInt z)) (session_encounter loc r d)
  = [] <-> peers_with z d = false.
Proof.
  unfold session_encounter, peers_with.
  destruct (dget d "neighbor_as") as [|b|n|s|l|o]; simpl;
    try discriminate; intros _.
  - split; reflexivity.
  - destruct (Z.eqb (Z_of_bool b) z); split; (reflexivity || discriminate).
  - destruct (Z.eqb n z); split; (reflexivity || discriminate).
  - split; reflexivity.
Qed.

Lemma find_none_iff {A} (p : A -> bool) (l : list A) :
  find p l = None <-> forall x, In x l -> p x = false.
Proof.
  induction l as [|a l IH]; simpl.
  - split; [intros _ ? []|reflexivity].
  - destruct (p a) eqn:E.
    + split; [discriminate|]. intros H. rewrite (H a) in E by now left.
      discriminate.
    + rewrite IH. split.
      * intros H x [<-|Hx]; auto.
      * intros H x Hx. apply H. now right.
Qed.

(** One endpoint of a snapshot that satisfies the data model: it has a row
    in the lookup exactly when it has an encounter in the view. *)
Lemma endpoint_row_encounters (loc r : string) (z : Z) (rsd : rs_entry) :
  errored rsd = negb (populated rsd) ->
  (populated rsd = true ->
   exists ss, sessions rsd = Some ss /\
              Forall (fun d => hashable (dget d "neighbor_as") = true) ss) ->
  endpoint_row z rsd = None
  <-> filter (fun e => key_eqb (enc_key e) (KInt z))
        (flat_map (session_encounter loc r) (endpoint_sessions rsd)) = [].
Proof.
  intros Hinv Hshape. unfold endpoint_row, endpoint_sessions.
  rewrite Hinv. destruct (populated rsd); simpl; [|split; reflexivity].
  destruct (Hshape eq_refl) as (ss & -> & Hhash).
  rewrite filter_flat_map_nil. rewrite Forall_forall in Hhash.
  destruct (find (peers_with z) ss) as [d|] eqn:Ef; simpl.
  - split; [discriminate|]. intros H.
    apply find_some in Ef as [Hin Hp].
    apply (peers_with_key loc r z d (Hhash d Hin)) in H; [|exact Hin].
    congruence.
  - split; [|reflexivity]. intros _ d Hin.
    apply (peers_with_key loc r z d (Hhash d Hin)).
    now apply (proj1 (find_none_iff _ _) Ef).
Qed.

(** X13.  On a refreshed directory that satisfies the data model (every
    endpoint either flagged or populated, never both) the lookup and the
    ASN view agree: [check_asn] finds no row for a number exactly when
    [asns] has no entry for it. *)
Theorem check_asn_agrees_with_asns (net : net_t) (z : Z) (w w' : world)
    (resp : matches_t) :
  check_asn net z w = inr (resp, w') ->
  distinct_keys (route_servers w') ->
  indexable "neighbor_as" (route_servers w') ->
  (forall loc r rsd, In (loc, r, rsd) (endpoints (route_servers w')) ->
     errored rsd = negb (populated rsd)) ->
  exists idx,
    asns w' = inr idx /\
    (resp = [] <-> Dict.get key_eqb (KInt z) idx = None).
Proof.
  intros Hc Hkeys Hix Hinv.
  pose proof (check_asn_blocks net z w w' resp Hc) as Hblocks.
  apply check_asn_inv in Hc as (rs & Hload & Hscan).
  apply load_bird_data_inv in Hload as [Hrs _]. subst rs.
  assert (Hshape : forall loc r rsd,
             In (loc, r, rsd) (endpoints (route_servers w')) ->
             errored rsd = false -> sessions rsd <> None).
  { intros loc r rsd Hin He. rewrite (Hinv loc r rsd Hin) in He.
    apply negb_false_iff in He.
    destruct (Hix loc r rsd Hin He) as (ss & -> & _). discriminate. }
  rewrite (scan_spec z (route_servers w') []) in Hscan;
    auto using shape_by_location.
  injection Hscan as <-.
  exists (fold_left add_encounter (asn_encounters (route_servers w')) []).
  split; [unfold asns; now apply asns_from_spec|].
  rewrite fold_add_encounter.
  transitivity (forall loc r rsd,
                   In (loc, r, rsd) (endpoints (route_servers w')) ->
                   endpoint_row z rsd = None).
  - rewrite <- rows_nil_iff, <- matched_rows_expected. split.
    + now intros ->.
    + now apply matched_rows_nil.
  - transitivity (filter (fun e => key_eqb (enc_key e) (KInt z))
                    (asn_encounters (route_servers w')) = []).
    + unfold asn_encounters. rewrite filter_flat_map_nil. split.
      * intros H [[loc r] rsd] Hin. simpl.
        apply (endpoint_row_encounters loc r z rsd); eauto.
      * intros H loc r rsd Hin.
        apply (endpoint_row_encounters loc r z rsd); eauto.
        apply (H (loc, r, rsd) Hin).
    + destruct (filter _ (asn_encounters (route_servers w')));
        simpl; split; (reflexivity || discriminate).
Qed.

Lemma check_asn_agrees_with_asns_witness :
  exists idx,
    asns steady_world = inr idx /\
    ([("SYD", [("rs1", {| asn := 64500; name := JStr "ExampleNet";
                          state := JStr "Established" |})])] = []
     <-> Dict.get key_eqb (KInt 64500) idx = None).
Proof.
  apply (check_asn_agrees_with_asns steady_net 64500 fresh_world steady_world).
  - vm_compute. reflexivity.
  - split; distinct_strings.
  - intros loc r rsd Hin. vm_compute in Hin. each_populated Hin.
  - intros loc r rsd Hin. vm_compute in Hin.
    repeat (destruct Hin as [Hin|Hin]; [injection Hin as <- <- <-; reflexivity|]).
    contradiction.
Defined.

(* ===================================================================== *)
(** ** Refreshing again *)
(* ===================================================================== *)

Section Again.
Variable net : net_t.

(** When no request succeeds, the refresh flags every entry and touches
    nothing else. *)
Section Outage.
Hypothesis all_fail :
  forall n u, exists e, requests_get_json net n u = inl e /\ caught e = true.

Lemma fetch_outage (n : nat) (rsd : rs_entry) :
  fetch net n rsd = inr (set_error rsd).
Proof.
  unfold fetch. destruct (all_fail n (url rsd)) as (e & -> & ->). reflexivity.
Qed.

Lemma load_location_outage (loc_data : location_data) (n : nat) :
  load_location net n loc_data
  = inr (map (fun re => (fst re, set_error (snd re))) loc_data,
         (n + List.length loc_data)%nat).
Proof.
  revert n. induction loc_data as [|[r rsd] rest IH]; intros n; simpl.
  - now rewrite Nat.add_0_r.
  - rewrite fetch_outage. simpl. rewrite IH. simpl.
    now replace (n + S (List.length rest))%nat
      with (S n + List.length rest)%nat by lia.
Qed.

Lemma load_all_outage (rs : route_servers_t) (n : nat) :
  load_all net n rs
  = inr (flag_all rs, (n + List.length (endpoints rs))%nat).
Proof.
  revert n. induction rs as [|[loc ld] rest IH]; intros n; simpl.
  - now rewrite Nat.add_0_r.
  - rewrite load_location_outage. simpl. rewrite IH. simpl.
    unfold endpoints. simpl. rewrite length_app, length_map.
    now rewrite Nat.add_assoc.
Qed.
End Outage.

(** The views read ['data'] alone. *)
Lemma asns_location_flag_all (loc : string) (loc_data : location_data)
    (acc : asn_index) :
  asns_location loc (map (fun re => (fst re, set_error (snd re))) loc_data) acc
  = asns_location loc loc_data acc.
Proof.
  revert acc. induction loc_data as [|[r rsd] rest IH]; intros acc; simpl;
    [reflexivity|].
  change (populated (set_error rsd)) with (populated rsd).
  change (entry_data (set_error rsd)) with (entry_data rsd).
  destruct (populated rsd); [|apply IH].
  destruct (entry_data rsd) as [e|dj]; [reflexivity|]. simpl.
  destruct (getitem dj "protocols") as [e|p]; [reflexivity|]. simpl.
  destruct (items p) as [e|its]; [reflexivity|]. simpl.
  destruct (asns_protocols loc r its acc); [reflexivity|]. simpl. apply IH.
Qed.

Lemma ips_location_flag_all (loc : string) (loc_data : location_data)
    (acc : ip_index) :
  ips_location loc (map (fun re => (fst re, set_error (snd re))) loc_data) acc
  = ips_location loc loc_data acc.
Proof.
  revert acc. induction loc_data as [|[r rsd] rest IH]; intros acc; simpl;
    [reflexivity|].
  change (populated (set_error rsd)) with (populated rsd).
  change (entry_data (set_error rsd)) with (entry_data rsd).
  destruct (populated rsd); [|apply IH].
  destruct (entry_data rsd) as [e|dj]; [reflexivity|]. simpl.
  destruct (getitem dj "protocols") as [e|p]; [reflexivity|]. simpl.
  destruct (items p) as [e|its]; [reflexivity|]. simpl.
  destruct (ips_protocols loc its acc); [reflexivity|]. simpl. apply IH.
Qed.

Lemma asns_from_flag_all (rs : route_servers_t) (acc : asn_index) :
  asns_from (flag_all rs) acc = asns_from rs acc.
Proof.
  revert acc. induction rs as [|[loc ld] rest IH]; intros acc; simpl;
    [reflexivity|].
  rewrite asns_location_flag_all.
  destruct (asns_location loc ld acc); [reflexivity|]. simpl. apply IH.
Qed.

Lemma ips_from_flag_all (rs : route_servers_t) (acc : ip_index) :
  ips_from (flag_all rs) acc = ips_from rs acc.
Proof.
  revert acc. induction rs as [|[loc ld] rest IH]; intros acc; simpl;
    [reflexivity|].
  rewrite ips_location_flag_all.
  destruct (ips_location loc ld acc); [reflexivity|]. simpl. apply IH.
Qed.

(** When the upstream answers do not change from one request to the next,
    a second refresh changes nothing. *)
Section Stationary.
Hypothesis stationary : forall n m u, net n u = net m u.

Lemma fetch_again (n m : nat) (rsd rsd' : rs_entry) :
  fetch net n rsd = inr rsd' -> fetch net m rsd' = inr rsd'.
Proof.
  unfold fetch, requests_get_json, raise, ret.
  destruct (net n (url rsd)) as [e|r] eqn:E.
  - destruct (caught e) eqn:Ec; [|discriminate]. intros [= <-].
    cbn [url set_error]. now rewrite (stationary m n), E, Ec.
  - destruct (json_body r) as [j|] eqn:Ej; simpl; intros [= <-];
      cbn [url set_error set_data]; now rewrite (stationary m n), E, Ej.
Qed.
End Stationary.
End Again.

Lemma load_location_again (net : net_t) (loc_data loc_data' : location_data)
    (n n' m : nat) :
  (forall a b u, net a u = net b u) ->
  load_location net n loc_data = inr (loc_data', n') ->
  load_location net m loc_data'
  = inr (loc_data', (m + List.length loc_data')%nat).
Proof.
  intros Hst. revert loc_data' n n' m.
  induction loc_data as [|[r rsd] rest IH]; intros ld' n n' m; simpl.
  - intros [= <- _]. simpl. now rewrite Nat.add_0_r.
  - intros H. apply bind_inr in H as (rsd' & Hf & H).
    apply bind_inr in H as ([rest' n1] & Hrest & H). injection H as <- _.
    simpl. rewrite (fetch_again net Hst n m _ _ Hf). simpl.
    rewrite (IH _ _ _ (S m) Hrest). simpl.
    now replace (m + S (List.length rest'))%nat
      with (S m + List.length rest')%nat by lia.
Qed.

Lemma load_all_again (net : net_t) (rs rs' : route_servers_t) (n n' m : nat) :
  (forall a b u, net a u = net b u) ->
  load_all net n rs = inr (rs', n') ->
  load_all net m rs' = inr (rs', (m + List.length (endpoints rs'))%nat).
Proof.
  intros Hst. revert rs' n n' m.
  induction rs as [|[loc ld] rest IH]; intros rs' n n' m; simpl.
  - intros [= <- _]. simpl. now rewrite Nat.add_0_r.
  - intros H. apply bind_inr in H as ([ld' n1] & Hld & H).
    apply bind_inr in H as ([rest' n2] & Hrest & H). injection H as <- _.
    simpl. rewrite (load_location_again net _ _ _ _ m Hst Hld). simpl.
    rewrite (IH _ _ _ (m + List.length ld')%nat Hrest). simpl.
    unfold endpoints. simpl. rewrite length_app, length_map.
    now rewrite Nat.add_assoc.
Qed.

(** X15.  Through an outage the views keep showing the tables fetched
    last: a refresh in which every request fails (with an exception the
    [except] clause names) flags every endpoint and changes nothing else,
    so [asns] and [ips] return after it what they returned before it. *)
Theorem views_unchanged_by_failed_refresh (net : net_t) (w : world) :
  (forall n u, exists e, requests_get_json net n u = inl e /\ caught e = true) ->
  exists w',
    _load_bird_data net w = inr (route_servers w', w') /\
    route_servers w' = flag_all (route_servers w) /\
    asns w' = asns w /\ ips w' = ips w.
Proof.
  intros Hfail.
  exists {| route_servers := flag_all (route_servers w);
            requests := (requests w
                         + List.length (endpoints (route_servers w)))%nat |}.
  unfold _load_bird_data, asns, ips.
  rewrite (load_all_outage net Hfail). simpl.
  now rewrite asns_from_flag_all, ips_from_flag_all.
Qed.

Lemma views_unchanged_by_failed_refresh_witness :
  exists w',
    _load_bird_data dark_net steady_world = inr (route_servers w', w') /\
    route_servers w' = flag_all (route_servers steady_world) /\
    asns w' = asns steady_world /\ ips w' = ips steady_world.
Proof.
  apply (views_unchanged_by_failed_refresh dark_net steady_world).
  intros n u. exists ConnectionError. split; reflexivity.
Defined.

(** X16.  Asking again gives the same answer: when the upstream answers
    do not change from one request to the next, a call of [on_message]
    that returned returns the same answer when repeated on the directory
    it left, and leaves the same dictionary. *)
Theorem on_message_repeats (net : net_t) (a : arg) (w w' : world)
    (r : body * json) :
  (forall n m u, net n u = net m u) ->
  on_message net a w = inr (r, w') ->
  exists w'',
    on_message net a w' = inr (r, w'') /\
    route_servers w'' = route_servers w'.
Proof.
  intros Hst H.
  assert (Hlookup : forall z, lookup net z w = inr (r, w') ->
            exists w'', lookup net z w' = inr (r, w'') /\
                        route_servers w'' = route_servers w').
  { intros z Hl. unfold lookup in *. destruct (Z.eqb z 1221).
    - injection Hl as <- <-. eauto.
    - apply bind_inr in Hl as ([resp w1] & Hc & Hl).
      pose proof Hc as Hc'.
      apply check_asn_inv in Hc' as (rs & Hload & Hscan).
      apply load_bird_data_inv in Hload as [Hrs Hload].
      assert (Hw1 : w1 = w').
      { destruct (Nat.eqb (List.length resp) 0);
          apply bind_inr in Hl as (r1 & _ & Hl); unfold ret in Hl; congruence. }
      subst w1.
      pose proof (load_all_again net _ _ _ _ (requests w') Hst Hload) as Hagain.
      exists {| route_servers := rs;
                requests := (requests w' + List.length (endpoints rs))%nat |}.
      split; [|now rewrite Hrs].
      unfold check_asn, get_responses, _load_bird_data.
      rewrite Hrs, Hagain. simpl. rewrite Hscan. simpl.
      destruct (Nat.eqb (List.length resp) 0);
        apply bind_inr in Hl as (r1 & Hp & Hl); rewrite Hp; simpl;
        unfold ret in *; congruence. }
  destruct a as [z|s]; simpl in H |- *.
  - now apply Hlookup.
  - destruct (py_not (_int_convert s)).
    + injection H as <- <-. eauto.
    + now apply Hlookup.
Qed.

Lemma on_message_repeats_witness :
  exists w'',
    on_message steady_net (AInt 64500)
      {| route_servers := steady_snapshot; requests := 24 |}
    = inr ((Fenced {| field_names := ["City"; "Route Server"; "BGP State"];
                      rows := [[JStr "SYD"; JStr "rs1"; JStr "Established"]] |},
            JStr "ExampleNet"), w'') /\
    route_servers w''
    = route_servers {| route_servers := steady_snapshot; requests := 24 |}.
Proof.
  apply (on_message_repeats steady_net (AInt 64500) steady_world
           {| route_servers := steady_snapshot; requests := 24 |}).
  - intros n m u. reflexivity.
  - vm_compute. reflexivity.
Defined.
